(** * simp-lee/vector: an in-memory vector-similarity search library

    A shallow embedding of [vector.go], [collection.go] and [document.go]
    and the properties of the library's specification that are stated
    about them.

    Conventions of the embedding:
    - a Go [float64] is a primitive binary64 float, so the arithmetic is
      the IEEE 754 arithmetic the program runs;
    - a Go [int] is a [Z] kept in the 64-bit two's complement range, the
      wrap-around of [+] and [-] is written out ([int_add], [int_sub]);
    - a Go [string] is a [string] (a sequence of bytes);
    - a Go pointer is an address into a heap of segments and a heap of
      documents; dereferencing an address that holds nothing is the nil
      dereference and panics;
    - a call returns an [outcome]: a value, an [error] (the message of the
      Go error), a run-time panic, or no return at all;
    - where Go leaves an order open (ranging over a map, the completion
      order of goroutines, the order of equal keys after [sort.Slice]) the
      order is taken from [shuffle], about which only "is a permutation"
      is known. *)

From Stdlib Require Import ZArith Floats Lia Ascii.
From stdpp Require Import gmap strings list fin_maps sorting.

Open Scope Z_scope.

(** ** Results of calls *)

Definition error := string.

Inductive outcome (A : Type) : Type :=
| Ok (a : A)
| Err (e : error)
| Panic (msg : string)
| Diverge.

Arguments Ok {A} a.
Arguments Err {A} e.
Arguments Panic {A} msg.
Arguments Diverge {A}.

#[export] Instance outcome_ret : MRet outcome := fun _ a => Ok a.

#[export] Instance outcome_bind : MBind outcome := fun _ _ f m =>
  match m with
  | Ok a => f a
  | Err e => Err e
  | Panic msg => Panic msg
  | Diverge => Diverge
  end.

#[export] Instance outcome_fmap : FMap outcome := fun _ _ f m =>
  match m with
  | Ok a => Ok (f a)
  | Err e => Err e
  | Panic msg => Panic msg
  | Diverge => Diverge
  end.

Definition is_Ok {A} (m : outcome A) : bool :=
  match m with Ok _ => true | _ => false end.

Definition is_Err {A} (m : outcome A) : bool :=
  match m with Err _ => true | _ => false end.

(** ** Go's [int] on a 64-bit platform *)

Definition int := Z.

Definition MaxInt : Z := 2 ^ 63 - 1.
Definition MinInt : Z := - 2 ^ 63.

Definition wrap (z : Z) : int := (z + 2 ^ 63) mod 2 ^ 64 - 2 ^ 63.

Definition int_add (a b : int) : int := wrap (a + b).
Definition int_sub (a b : int) : int := wrap (a - b).

(** [len(s)] of a slice. *)
Definition len {A} (l : list A) : int := Z.of_nat (length l).

(** ** What the Go run time leaves open

    [shuffle] stands for every order Go does not fix; [runes_of_string]
    and [string_of_runes] are the conversions [[]rune(s)] and
    [string(rs)] between UTF-8 bytes and code points. *)

Class GoRuntime := {
  shuffle : forall {A : Type}, list A -> list A;
  shuffle_perm : forall (A : Type) (l : list A), shuffle l ≡ₚ l;
  runes_of_string : string -> list Z;
  string_of_runes : list Z -> string;
}.

(** ** vector.go *)

Definition float64 := float.

(** [a > b] on float64. *)
Definition fgt (a b : float64) : bool := PrimFloat.ltb b a.

(** [sum += v * v] over the vector. *)
Definition sumSquares (vector : list float64) : float64 :=
  foldl (fun sum v => PrimFloat.add sum (PrimFloat.mul v v)) 0%float vector.

Definition normalizeVector (vector : list float64) : outcome (list float64) :=
  let sum := sumSquares vector in
  if PrimFloat.eqb sum 0%float then Err "cannot normalize a zero vector"
  else
    let norm := PrimFloat.sqrt sum in
    Ok (map (fun v => PrimFloat.div v norm) vector).

(** The loop [for i := range vec1 { dotP += vec1[i] * vec2[i] }]; the
    two slices have the same length when it runs. *)
Fixpoint dotLoop (dotP : float64) (vec1 vec2 : list float64) : float64 :=
  match vec1, vec2 with
  | a :: vec1', b :: vec2' => dotLoop (PrimFloat.add dotP (PrimFloat.mul a b)) vec1' vec2'
  | _, _ => dotP
  end.

Definition dotProduct (vec1 vec2 : list float64) : outcome float64 :=
  if negb (length vec1 =? length vec2)%nat then Err "vectors must have the same length"
  else Ok (dotLoop 0%float vec1 vec2).

Record Similarity := {
  Similarity_ID : string;
  Similarity_Score : float64;
}.

(** The zero value of [Similarity], what [make([]Similarity, n)] fills
    the slice with. *)
Definition zeroSimilarity : Similarity :=
  {| Similarity_ID := EmptyString; Similarity_Score := 0%float |}.

(** *** [sort.Slice]

    Go's standard library sorts a short slice by insertion
    ([insertionSortLessFunc]: element [i] moves left while it is [less]
    than its left neighbour) and a long one by an unstable pattern
    defeating quicksort.  [insertRev] is the move to the left, on the
    already sorted prefix kept in reverse. *)

Fixpoint insertRev {A} (less : A -> A -> bool) (x : A) (racc : list A) : list A :=
  match racc with
  | [] => [x]
  | p :: racc' => if less x p then p :: insertRev less x racc' else x :: racc
  end.

Definition insertionSort {A} (less : A -> A -> bool) (data : list A) : list A :=
  rev (foldl (fun racc x => insertRev less x racc) [] data).

(** The unstable sort: an insertion sort of the slice in an order that is
    not fixed. For a [less] that is a strict weak order these are exactly
    the sorted rearrangements of the slice. *)
Definition sortSlice `{GoRuntime} {A} (less : A -> A -> bool) (data : list A) : list A :=
  insertionSort less (shuffle data).

(** [s[:n]]: panics unless [0 <= n <= cap(s)]; the slices it is used on
    have their capacity equal to their length or [n <= len(s)] is
    checked before. *)
Definition slicePrefix {A} (s : list A) (n : int) : outcome (list A) :=
  if (n <? 0) || (len s <? n) then Panic "slice bounds out of range"
  else Ok (take (Z.to_nat n) s).

(** One goroutine per candidate: goroutine [i] owns slot [i] of
    [similarities]; a failed dot product leaves the slot as [make] made
    it. [ids[i]] is read only after the dot product succeeded. *)
Fixpoint scoreEmbeddings (q : list float64) (embeddings : list (list float64))
    (ids : list string) (i : nat) : outcome (list Similarity) :=
  match embeddings with
  | [] => Ok []
  | embedding :: rest =>
      match dotProduct q embedding with
      | Ok score =>
          match ids !! i with
          | Some id =>
              cons {| Similarity_ID := id; Similarity_Score := score |}
                <$> scoreEmbeddings q rest ids (S i)
          | None => Panic "index out of range"
          end
      | _ => cons zeroSimilarity <$> scoreEmbeddings q rest ids (S i)
      end
  end.

Definition similarityLess (a b : Similarity) : bool :=
  fgt (Similarity_Score a) (Similarity_Score b).

Definition getTopNSimilarEmbeddings `{GoRuntime} (queryEmbedding : list float64)
    (embeddings : list (list float64)) (ids : list string) (topN : int)
    : outcome (list Similarity) :=
  match embeddings with
  | [] => Err "no embeddings provided"
  | first :: _ =>
      if negb (length queryEmbedding =? length first)%nat
      then Err "query embedding length does not match embeddings"
      else
        normalizedQueryEmbedding ← normalizeVector queryEmbedding;
        similarities ← scoreEmbeddings normalizedQueryEmbedding embeddings ids 0;
        let similarities := sortSlice similarityLess similarities in
        let topN := if len similarities <? topN then len similarities else topN in
        slicePrefix similarities topN
  end.

(** ** collection.go and document.go: the data model *)

(** A value of [interface{}] in a metadata map. *)
Inductive any : Type :=
| any_nil
| any_string (s : string)
| any_int (i : int)
| any_float64 (f : float64)
| any_bool (b : bool).

Record Segment := {
  Text : string;
  Embedding : list float64;
}.

(** An address; [*Segment] and [*Document] are addresses into the two
    parts of the [heap]. *)
Definition ptr := positive.

Record Document := {
  ID : string;
  Metadata : gmap string any;
  Segments : list ptr;
  Content : string;
}.

Record heap := {
  segments_at : gmap ptr Segment;
  documents_at : gmap ptr Document;
}.

Definition EmbeddingFunc := list string -> string -> outcome (list (list float64)).

Record Collection := {
  Name : string;
  metadata : gmap string any;
  documents : gmap string ptr;
  embeddingFunc : EmbeddingFunc;
  embeddingDocumentType : string;
  embeddingQueryType : string;
  ChunkSize : int;
  ChunkOverlap : int;
}.

Record Result := {
  Result_Document : ptr;
  Result_Segment : ptr;
  Result_Similarity : float64;
}.

Definition Formatter := string -> gmap string any -> string -> string.

(** [c.documents = m], the other fields as they are. *)
Definition set_documents (c : Collection) (m : gmap string ptr) : Collection :=
  {| Name := Name c; metadata := metadata c; documents := m;
     embeddingFunc := embeddingFunc c;
     embeddingDocumentType := embeddingDocumentType c;
     embeddingQueryType := embeddingQueryType c;
     ChunkSize := ChunkSize c; ChunkOverlap := ChunkOverlap c |}.

(** [&Segment{...}]: a fresh address holding the segment. *)
Definition newSegment (h : heap) (s : Segment) : ptr * heap :=
  let p := fresh (dom (segments_at h)) in
  (p, {| segments_at := <[p := s]> (segments_at h); documents_at := documents_at h |}).

(** [doc.Segments = append(doc.Segments, seg)]. *)
Definition appendSegment (h : heap) (doc : ptr) (seg : ptr) : heap :=
  {| segments_at := segments_at h;
     documents_at :=
       alter (fun d => {| ID := ID d; Metadata := Metadata d;
                          Segments := Segments d ++ [seg]; Content := Content d |})
             doc (documents_at h) |}.

(** The failure of a call, passed on by its caller. *)
Definition abort {A B} (m : outcome A) : outcome B :=
  match m with
  | Err e => Err e
  | Panic msg => Panic msg
  | _ => Diverge
  end.

Definition nilDereference {A} : outcome A :=
  Panic "invalid memory address or nil pointer dereference".

Definition NewCollection (name embeddingDocumentType embeddingQueryType : string)
    (chunkSize chunkOverlap : int) (embeddingFunc : option EmbeddingFunc)
    : outcome Collection :=
  match embeddingFunc with
  | None => Err "embedding function is required"
  | Some f =>
      if chunkSize <=? 0 then Err "chunk size must be greater than zero"
      else if chunkOverlap <? 0 then Err "chunk overlap must be greater than or equal to zero"
      else if chunkSize <=? chunkOverlap then Err "chunk overlap must be less than chunk size"
      else if decide (name = EmptyString) then Err "collection name is required"
      else if decide (embeddingDocumentType = EmptyString) then Err "embedding document type is required"
      else if decide (embeddingQueryType = EmptyString) then Err "embedding query type is required"
      else Ok {| Name := name; metadata := ∅; documents := ∅;
                 embeddingFunc := f;
                 embeddingDocumentType := embeddingDocumentType;
                 embeddingQueryType := embeddingQueryType;
                 ChunkSize := chunkSize; ChunkOverlap := chunkOverlap |}
  end.

(** *** splitText *)

(** [runes[i:end]] where [end <= len(runes)]. *)
Definition sliceRunes (runes : list Z) (i end_ : int) : outcome (list Z) :=
  if (i <? 0) || (end_ <? i) || (len runes <? end_)
  then Panic "slice bounds out of range"
  else Ok (take (Z.to_nat (end_ - i)) (drop (Z.to_nat i) runes)).

(** The loop of [splitText] from [i] on. Every turn of a loop that ends
    moves [i] forward by at least one, so [fuel] beyond the number of
    runes is never used up by a loop that ends. *)
Fixpoint splitTextLoop `{GoRuntime} (fuel : nat) (chunkSize chunkOverlap : int)
    (runes : list Z) (i : int) (chunks : list string) : outcome (list string) :=
  if i <? len runes then
    match fuel with
    | O => Diverge
    | S fuel' =>
        let end_ := int_add i chunkSize in
        let end_ := if len runes <? end_ then len runes else end_ in
        chunk ← sliceRunes runes i end_;
        splitTextLoop fuel' chunkSize chunkOverlap runes
          (int_add i (int_sub chunkSize chunkOverlap))
          (chunks ++ [string_of_runes chunk])
    end
  else Ok chunks.

Definition splitText `{GoRuntime} (c : Collection) (text : string) : outcome (list string) :=
  let runes := runes_of_string text in
  splitTextLoop (S (length runes)) (ChunkSize c) (ChunkOverlap c) runes 0 [].

(** *** The document store *)

(** The loop of [AddDocument] over the embeddings, from index [i]. *)
Fixpoint addSegments (h : heap) (doc : ptr) (segments : list string) (i : nat)
    (embeddings : list (list float64)) : heap * outcome unit :=
  match embeddings with
  | [] => (h, Ok tt)
  | embedding :: rest =>
      match normalizeVector embedding with
      | Ok norm =>
          match segments !! i with
          | Some text =>
              let '(p, h1) := newSegment h {| Text := text; Embedding := norm |} in
              addSegments (appendSegment h1 doc p) doc segments (S i) rest
          | None => (h, Panic "index out of range")
          end
      | failed => (h, abort failed)
      end
  end.

Definition AddDocument `{GoRuntime} (c : Collection) (h : heap) (doc : ptr)
    : Collection * heap * outcome unit :=
  match documents_at h !! doc with
  | None => (c, h, nilDereference)
  | Some d =>
      if decide (ID d = EmptyString) then (c, h, Err "document ID is required")
      else if decide (is_Some (documents c !! ID d))
      then (c, h, Err ("document with ID " +:+ ID d +:+ " already exists"))
      else if decide (Content d = EmptyString) then (c, h, Err "document content is required")
      else
        match splitText c (Content d) with
        | Ok segments =>
            match embeddingFunc c segments (embeddingDocumentType c) with
            | Ok embeddings =>
                match addSegments h doc segments 0 embeddings with
                | (h', Ok _) => (set_documents c (<[ID d := doc]> (documents c)), h', Ok tt)
                | (h', failed) => (c, h', failed)
                end
            | failed => (c, h, abort failed)
            end
        | failed => (c, h, abort failed)
        end
  end.

Definition GetDocument (c : Collection) (id : string) : option ptr :=
  documents c !! id.

(** [docs[id] = *doc]: a copy of each stored document. *)
Definition GetDocuments (c : Collection) (h : heap) : outcome (gmap string Document) :=
  map_fold (fun id doc acc =>
              docs ← acc;
              match documents_at h !! doc with
              | Some d => Ok (<[id := d]> docs)
              | None => nilDereference
              end)
           (Ok ∅) (documents c).

Definition DeleteDocument (c : Collection) (id : string) : Collection * outcome unit :=
  match documents c !! id with
  | None => (c, Err ("document with ID " +:+ id +:+ " not found"))
  | Some _ => (set_documents c (delete id (documents c)), Ok tt)
  end.

Definition UpdateDocument (c : Collection) (h : heap) (doc : ptr)
    : Collection * outcome unit :=
  match documents_at h !! doc with
  | None => (c, nilDereference)
  | Some d =>
      if decide (ID d = EmptyString) then (c, Err "document ID is required")
      else if decide (documents c !! ID d = None)
      then (c, Err ("document with ID " +:+ ID d +:+ " not found"))
      else if decide (Content d = EmptyString) then (c, Err "document content is required")
      else (set_documents c (<[ID d := doc]> (documents c)), Ok tt)
  end.

Definition Length (c : Collection) : int := Z.of_nat (size (documents c)).

(** [embeddings[i] = norm] for every [i], stopping at the first vector
    that cannot be normalized. *)
Fixpoint normalizeAll (embeddings : list (list float64)) : outcome (list (list float64)) :=
  match embeddings with
  | [] => Ok []
  | embedding :: rest =>
      norm ← normalizeVector embedding;
      cons norm <$> normalizeAll rest
  end.

(** The second loop of [EmbedDocuments] over the segment texts, from
    index [i]. *)
Fixpoint embedSegments (h : heap) (doc : ptr) (embeddings : list (list float64))
    (i : nat) (segments : list string) : heap * outcome unit :=
  match segments with
  | [] => (h, Ok tt)
  | segmentText :: rest =>
      match embeddings !! i with
      | Some embedding =>
          let '(p, h1) := newSegment h {| Text := segmentText; Embedding := embedding |} in
          embedSegments (appendSegment h1 doc p) doc embeddings (S i) rest
      | None => (h, Panic "index out of range")
      end
  end.

(** The body of the loop of [EmbedDocuments] for one document. *)
Definition embedDocument `{GoRuntime} (c : Collection) (h : heap) (doc : ptr)
    : heap * outcome unit :=
  match documents_at h !! doc with
  | None => (h, nilDereference)
  | Some d =>
      if decide (Content d = EmptyString) then (h, Err "document content is required")
      else
        match splitText c (Content d) with
        | Ok segments =>
            match embeddingFunc c segments (embeddingDocumentType c) with
            | Ok embeddings =>
                match normalizeAll embeddings with
                | Ok embeddings => embedSegments h doc embeddings 0 segments
                | failed => (h, abort failed)
                end
            | failed => (h, abort failed)
            end
        | failed => (h, abort failed)
        end
  end.

Fixpoint embedAll `{GoRuntime} (c : Collection) (h : heap) (docs : list (string * ptr))
    : heap * outcome unit :=
  match docs with
  | [] => (h, Ok tt)
  | (_, doc) :: rest =>
      match embedDocument c h doc with
      | (h', Ok _) => embedAll c h' rest
      | failed => failed
      end
  end.

Definition EmbedDocuments `{GoRuntime} (c : Collection) (h : heap) : heap * outcome unit :=
  embedAll c h (shuffle (map_to_list (documents c))).

(** *** Candidate identifiers: [fmt.Sprintf("%s_%d", docID, segmentIndex)]
    and [parseIDAndSegmentIndex] *)

(** [byte('0' + d)]. *)
Definition digitChar (d : Z) : ascii := Ascii.ascii_of_N (Z.to_N (48 + d)).

(** The digit loop of [fmt]'s integer formatting:
    [for u >= 10 { buf[i] = byte('0' + u%10); u /= 10 }; buf[i] = byte('0' + u)];
    the buffer is filled from its end. [fuel] is the room in the buffer;
    a 64-bit number has at most 20 decimal digits. *)
Fixpoint fmtDigits (fuel : nat) (u : Z) (buf : string) : string :=
  match fuel with
  | O => buf
  | S fuel' =>
      if u <? 10 then String (digitChar u) buf
      else fmtDigits fuel' (u / 10) (String (digitChar (u mod 10)) buf)
  end.

(** The verb [%d] on an [int]. *)
Definition fmtInteger (v : int) : string :=
  if v <? 0 then String "-"%char (fmtDigits 20 (- v) EmptyString)
  else fmtDigits 20 v EmptyString.

Definition compositeID (docID : string) (segmentIndex : int) : string :=
  docID +:+ "_" +:+ fmtInteger segmentIndex.

(** [strings.LastIndex(s, sep)] for a separator of one byte: scans [s]
    from byte [i] on, [last] is the latest hit so far. *)
Fixpoint lastIndexFrom (sep : ascii) (s : string) (i last : int) : int :=
  match s with
  | EmptyString => last
  | String a s' => lastIndexFrom sep s' (i + 1) (if Ascii.eqb a sep then i else last)
  end.

Definition LastIndex (s : string) (sep : ascii) : int := lastIndexFrom sep s 0 (-1).

Definition isDigit (a : ascii) : bool :=
  let n := Z.of_N (Ascii.N_of_ascii a) in (48 <=? n) && (n <=? 57).

Fixpoint parseDigits (s : string) (n : Z) : option Z :=
  match s with
  | EmptyString => Some n
  | String a s' =>
      if isDigit a then parseDigits s' (n * 10 + (Z.of_N (Ascii.N_of_ascii a) - 48))
      else None
  end.

(** [strconv.Atoi]: an optional sign, then at least one decimal digit and
    nothing else; the value has to fit an [int]. *)
Definition Atoi (s : string) : outcome int :=
  let '(neg, digits) :=
    match s with
    | String "-"%char s' => (true, s')
    | String "+"%char s' => (false, s')
    | _ => (false, s)
    end in
  match digits with
  | EmptyString => Err "strconv.Atoi: invalid syntax"
  | _ =>
      match parseDigits digits 0 with
      | None => Err "strconv.Atoi: invalid syntax"
      | Some n =>
          let v := if neg then - n else n in
          if (v <? MinInt) || (MaxInt <? v) then Err "strconv.Atoi: value out of range"
          else Ok v
      end
  end.

Definition parseIDAndSegmentIndex (id : string) : outcome (string * int) :=
  let lastUnderscoreIndex := LastIndex id "_"%char in
  if lastUnderscoreIndex =? -1 then Err ("invalid ID format: " +:+ id)
  else
    let docID := String.substring 0 (Z.to_nat lastUnderscoreIndex) id in
    let rest := String.substring (Z.to_nat (lastUnderscoreIndex + 1))
                          (String.length id - Z.to_nat (lastUnderscoreIndex + 1)) id in
    segmentIndex ← Atoi rest;
    Ok (docID, segmentIndex).

(** *** The query engine *)

(** The inner loop of the flattening, over the segments of one document
    from index [segmentIndex] on. *)
Fixpoint flattenSegments (h : heap) (docID : string) (segmentIndex : nat)
    (segments : list ptr) : outcome (list (list float64 * string)) :=
  match segments with
  | [] => Ok []
  | segment :: rest =>
      match segments_at h !! segment with
      | Some s =>
          cons (Embedding s, compositeID docID (Z.of_nat segmentIndex))
            <$> flattenSegments h docID (S segmentIndex) rest
      | None => nilDereference
      end
  end.

Fixpoint flattenDocuments (h : heap) (docs : list (string * ptr))
    : outcome (list (list float64 * string)) :=
  match docs with
  | [] => Ok []
  | (docID, doc) :: rest =>
      match documents_at h !! doc with
      | Some d =>
          candidates ← flattenSegments h docID 0 (Segments d);
          app candidates <$> flattenDocuments h rest
      | None => nilDereference
      end
  end.

(** The body of one resolving goroutine: [None] is a skip. *)
Definition resolveSimilarity (c : Collection) (h : heap) (sim : Similarity)
    : outcome (option Result) :=
  match parseIDAndSegmentIndex (Similarity_ID sim) with
  | Ok (docID, segmentIndex) =>
      match documents c !! docID with
      | None => Ok None
      | Some doc =>
          match documents_at h !! doc with
          | None => nilDereference
          | Some d =>
              if (segmentIndex <? 0) || (len (Segments d) <=? segmentIndex) then Ok None
              else
                match Segments d !! Z.to_nat segmentIndex with
                | Some segment =>
                    Ok (Some {| Result_Document := doc; Result_Segment := segment;
                                Result_Similarity := Similarity_Score sim |})
                | None => Panic "index out of range"
                end
          end
      end
  | Err _ => Ok None
  | failed => abort failed
  end.

Fixpoint resolveSimilarities (c : Collection) (h : heap) (sims : list Similarity)
    : outcome (list Result) :=
  match sims with
  | [] => Ok []
  | sim :: rest =>
      r ← resolveSimilarity c h sim;
      results ← resolveSimilarities c h rest;
      Ok (match r with Some res => res :: results | None => results end)
  end.

Definition resultLess (a b : Result) : bool :=
  fgt (Result_Similarity a) (Result_Similarity b).

Definition GetTopNSimilarDocuments `{GoRuntime} (c : Collection) (h : heap)
    (query : string) (topN : int) : outcome (list Result) :=
  queryEmbedding ← embeddingFunc c [query] (embeddingQueryType c);
  match queryEmbedding with
  | [] => Err "no embeddings generated for the query"
  | queryEmbedding0 :: _ =>
      candidates ← flattenDocuments h (shuffle (map_to_list (documents c)));
      similarities ← getTopNSimilarEmbeddings queryEmbedding0
                        (map fst candidates) (map snd candidates) topN;
      results ← resolveSimilarities c h (shuffle similarities);
      Ok (sortSlice resultLess results)
  end.

(** One step of the merge: [uniqueResults] keeps, for each document ID,
    the first result that no later one exceeds. *)
Definition mergeResult (h : heap) (uniqueResults : gmap string Result) (res : Result)
    : outcome (gmap string Result) :=
  match documents_at h !! Result_Document res with
  | None => nilDereference
  | Some d =>
      let docID := ID d in
      match uniqueResults !! docID with
      | None => Ok (<[docID := res]> uniqueResults)
      | Some existingRes =>
          if fgt (Result_Similarity res) (Result_Similarity existingRes)
          then Ok (<[docID := res]> uniqueResults)
          else Ok uniqueResults
      end
  end.

Fixpoint mergeResults (h : heap) (uniqueResults : gmap string Result) (results : list Result)
    : outcome (gmap string Result) :=
  match results with
  | [] => Ok uniqueResults
  | res :: rest =>
      uniqueResults ← mergeResult h uniqueResults res;
      mergeResults h uniqueResults rest
  end.

(** The results of the queries that did not fail, in the order of the
    queries; a query that failed left its slot of [queryResults] empty. *)
Fixpoint survivingResults (queryResults : list (outcome (list Result))) : list Result :=
  match queryResults with
  | [] => []
  | Ok results :: rest => results ++ survivingResults rest
  | _ :: rest => survivingResults rest
  end.

Definition errNum (queryResults : list (outcome (list Result))) : int :=
  len (filter (fun r => is_Ok r = false) queryResults).

(** A goroutine that panics ends the program. *)
Fixpoint firstCrash (queryResults : list (outcome (list Result))) : option (outcome (list Result)) :=
  match queryResults with
  | [] => None
  | Panic msg :: _ => Some (Panic msg)
  | Diverge :: _ => Some Diverge
  | _ :: rest => firstCrash rest
  end.

Definition GetTopNSimilarDocumentsForQueries `{GoRuntime} (c : Collection) (h : heap)
    (queries : list string) (topN : int) : outcome (list Result) :=
  let queryResults := map (fun query => GetTopNSimilarDocuments c h query topN) queries in
  match firstCrash queryResults with
  | Some crash => crash
  | None =>
      if errNum queryResults =? len queries
      then Err "failed to get top N similar documents for all queries"
      else
        uniqueResults ← mergeResults h ∅ (survivingResults queryResults);
        let results := map snd (shuffle (map_to_list uniqueResults)) in
        let results := sortSlice resultLess results in
        if topN <? len results then slicePrefix results topN else Ok results
  end.

(** *** AggregateResults *)

Definition newline : string := String "010"%char EmptyString.

(** The three maps [AggregateResults] builds from the results. *)
Record aggregation := {
  docSegmentsMap : gmap string (list ptr);
  docMetadataMap : gmap string (gmap string any);
  docSimilarityMap : gmap string float64;
}.

Definition emptyAggregation : aggregation :=
  {| docSegmentsMap := ∅; docMetadataMap := ∅; docSimilarityMap := ∅ |}.

(** [docSimilarityMap[docID]], the zero value for a missing key. *)
Definition similarityOf (m : gmap string float64) (docID : string) : float64 :=
  default 0%float (m !! docID).

(** The body of the accumulating loop. *)
Definition accumulate (h : heap) (acc : aggregation) (result : Result) : outcome aggregation :=
  match documents_at h !! Result_Document result with
  | None => nilDereference
  | Some d =>
      let docID := ID d in
      match docSegmentsMap acc !! docID with
      | None =>
          Ok {| docSegmentsMap := <[docID := Segments d]> (docSegmentsMap acc);
                docMetadataMap := <[docID := Metadata d]> (docMetadataMap acc);
                docSimilarityMap := <[docID := Result_Similarity result]> (docSimilarityMap acc) |}
      | Some _ =>
          if fgt (Result_Similarity result) (similarityOf (docSimilarityMap acc) docID)
          then Ok {| docSegmentsMap := docSegmentsMap acc;
                     docMetadataMap := docMetadataMap acc;
                     docSimilarityMap := <[docID := Result_Similarity result]> (docSimilarityMap acc) |}
          else Ok acc
      end
  end.

Fixpoint accumulateAll (h : heap) (acc : aggregation) (results : list Result)
    : outcome aggregation :=
  match results with
  | [] => Ok acc
  | result :: rest =>
      acc ← accumulate h acc result;
      accumulateAll h acc rest
  end.

(** The innermost loop: is there a result of document [docID] whose
    segment is [segment]? The loop stops at the first one. *)
Fixpoint segmentMatched (h : heap) (docID : string) (segment : ptr) (results : list Result)
    : outcome bool :=
  match results with
  | [] => Ok false
  | result :: rest =>
      match documents_at h !! Result_Document result with
      | None => nilDereference
      | Some d =>
          if bool_decide (ID d = docID) && bool_decide (Result_Segment result = segment)
          then Ok true
          else segmentMatched h docID segment rest
      end
  end.

(** The loop over the segments of a document from index [i] on, writing
    to [contentBuilder]. *)
Fixpoint writeSegments (h : heap) (docID : string) (results : list Result) (i : nat)
    (segments : list ptr) (contentBuilder : string) : outcome string :=
  match segments with
  | [] => Ok contentBuilder
  | segment :: rest =>
      matched ← segmentMatched h docID segment results;
      if matched : bool then
        let contentBuilder :=
          if (0 <? i)%nat then contentBuilder +:+ newline else contentBuilder in
        match segments_at h !! segment with
        | Some s => writeSegments h docID results (S i) rest (contentBuilder +:+ Text s)
        | None => nilDereference
        end
      else writeSegments h docID results (S i) rest contentBuilder
  end.

(** What the formatter is called with for one document. *)
Definition documentContent (h : heap) (acc : aggregation) (results : list Result)
    (docID : string) : outcome string :=
  writeSegments h docID results 0 (default [] (docSegmentsMap acc !! docID)) EmptyString.

Fixpoint formatDocuments (h : heap) (acc : aggregation) (results : list Result)
    (formatter : Formatter) (docIDs : list string) (resultBuilder : string) : outcome string :=
  match docIDs with
  | [] => Ok resultBuilder
  | docID :: rest =>
      let metadata := default ∅ (docMetadataMap acc !! docID) in
      content ← documentContent h acc results docID;
      formatDocuments h acc results formatter rest
        (resultBuilder +:+ formatter docID metadata content)
  end.

(** The document IDs by descending highest similarity. *)
Definition sortedDocIDs `{GoRuntime} (docSimilarityMap : gmap string float64) : list string :=
  sortSlice (fun a b => fgt (similarityOf docSimilarityMap a) (similarityOf docSimilarityMap b))
            (map fst (shuffle (map_to_list docSimilarityMap))).

Definition AggregateResults `{GoRuntime} (h : heap) (results : list Result)
    (formatter : Formatter) : outcome string :=
  acc ← accumulateAll h emptyAggregation results;
  formatDocuments h acc results formatter (sortedDocIDs (docSimilarityMap acc)) EmptyString.

(** The version of document.go that came before: it sorts the results
    by similarity and joins the texts of a document in that order. *)
Module Earlier.

Record aggregation := {
  docContentMap : gmap string string;
  docMetadataMap : gmap string (gmap string any);
  docSimilarityMap : gmap string float64;
}.

Definition accumulate (h : heap) (acc : aggregation) (result : Result) : outcome aggregation :=
  match documents_at h !! Result_Document result with
  | None => nilDereference
  | Some d =>
      let docID := ID d in
      match segments_at h !! Result_Segment result with
      | None => nilDereference
      | Some s =>
          match docContentMap acc !! docID with
          | None =>
              Ok {| docContentMap := <[docID := Text s]> (docContentMap acc);
                    docMetadataMap := <[docID := Metadata d]> (docMetadataMap acc);
                    docSimilarityMap := <[docID := Result_Similarity result]> (docSimilarityMap acc) |}
          | Some content =>
              Ok {| docContentMap := <[docID := content +:+ newline +:+ Text s]> (docContentMap acc);
                    docMetadataMap := docMetadataMap acc;
                    docSimilarityMap := docSimilarityMap acc |}
          end
      end
  end.

Fixpoint accumulateAll (h : heap) (acc : aggregation) (results : list Result)
    : outcome aggregation :=
  match results with
  | [] => Ok acc
  | result :: rest =>
      acc ← accumulate h acc result;
      accumulateAll h acc rest
  end.

Definition AggregateResults `{GoRuntime} (h : heap) (results : list Result)
    (formatter : Formatter) : outcome string :=
  let results := sortSlice resultLess results in
  acc ← accumulateAll h {| docContentMap := ∅; docMetadataMap := ∅; docSimilarityMap := ∅ |} results;
  Ok (foldl (fun resultBuilder docID =>
               resultBuilder +:+
               formatter docID (default ∅ (docMetadataMap acc !! docID))
                         (default EmptyString (docContentMap acc !! docID)))
            EmptyString (sortedDocIDs (docSimilarityMap acc))).

End Earlier.

(** ** A run time to evaluate with

    The order of a slice is kept wherever Go leaves it open, and text is
    ASCII: a byte is a code point. *)

Definition ascii_runes (s : string) : list Z :=
  map (fun a => Z.of_N (Ascii.N_of_ascii a)) (String.list_ascii_of_string s).

Definition ascii_string (runes : list Z) : string :=
  String.string_of_list_ascii (map (fun r => Ascii.ascii_of_N (Z.to_N r)) runes).

Definition ascii_runtime : GoRuntime :=
  {| shuffle := fun _ l => l;
     shuffle_perm := fun _ l => reflexivity l;
     runes_of_string := ascii_runes;
     string_of_runes := ascii_string |}.

(** ** Notions the properties are stated with *)

(** No element of [l] is [less] than the one before it. *)
Definition ordered {A} (less : A -> A -> bool) (l : list A) : Prop :=
  Sorted (fun a b => less b a = false) l.

(** Scores in descending order: each one is at least every later one. *)
Definition descending (scores : list float64) : Prop :=
  StronglySorted (fun a b => PrimFloat.leb b a = true) scores.

Definition noNaN (scores : list float64) : Prop :=
  Forall (fun s => PrimFloat.is_nan s = false) scores.

(** The place of a float that is not NaN in the order of the floats:
    the class (infinite, finite, zero, by sign), then exponent and
    mantissa. *)
Definition sf_key (x : spec_float) : Z * Z * Z :=
  match x with
  | S754_nan => (0, 0, 0)
  | S754_zero _ => (0, 0, 0)
  | S754_infinity s => (if s then -2 else 2, 0, 0)
  | S754_finite s m e => if s then (-1, - e, - Z.pos m) else (1, e, Z.pos m)
  end.

Definition key_lt (a b : Z * Z * Z) : Prop :=
  let '(c1, e1, m1) := a in
  let '(c2, e2, m2) := b in
  c1 < c2 \/ (c1 = c2 /\ (e1 < e2 \/ (e1 = e2 /\ m1 < m2))).

(** The digits [fmt] writes: at least one, all decimal, none an
    underscore. *)
Inductive digitString : string -> Prop :=
| digitString_one d : 0 <= d <= 9 -> digitString (String (digitChar d) EmptyString)
| digitString_more d s : 0 <= d <= 9 -> digitString s -> digitString (String (digitChar d) s).

(** The windows of the segmenter as the specification gives them: with
    chunk size [S], overlap [O] and [L] code points, the windows
    [i, min(i+S, L)) for [i = 0, S-O, 2(S-O), ...] while [i < L]. *)
Definition windowCount (S O L : Z) : nat := Z.to_nat ((L + (S - O) - 1) / (S - O)).

Definition windowStarts (S O L : Z) : list Z :=
  map (fun k => Z.of_nat k * (S - O)) (seq 0 (windowCount S O L)).

Definition window (runes : list Z) (S i : Z) : list Z :=
  take (Z.to_nat (Z.min (i + S) (len runes) - i)) (drop (Z.to_nat i) runes).

Definition windows (runes : list Z) (S O : Z) : list (list Z) :=
  map (window runes S) (windowStarts S O (len runes)).

(** ** The collection of the repository's tests

    [NewCollection("test", "docType", "queryType", 100, 10, embeddingFunc.Embed)]
    with the mock that returns the one vector [(1, 2)] for every call. *)

Definition mockEmbeddingFunc : EmbeddingFunc := fun _ _ => Ok [[1; 2]%float].

Definition testCollection : Collection :=
  {| Name := "test"; metadata := ∅; documents := ∅;
     embeddingFunc := mockEmbeddingFunc;
     embeddingDocumentType := "docType"; embeddingQueryType := "queryType";
     ChunkSize := 100; ChunkOverlap := 10 |}.

(** A content of 250 characters. *)
Definition content250 : string := String.string_of_list_ascii (repeat "x"%char 250).


(** The invariant of the document map: a stored document is allocated,
    its ID is the key it is stored under and is not empty, and its
    content is not empty. *)
Definition store_inv (c : Collection) (h : heap) : Prop :=
  forall id p, documents c !! id = Some p ->
    exists d, documents_at h !! p = Some d /\
              ID d = id /\ id <> EmptyString /\ Content d <> EmptyString.

(** From [h] to [h'] every allocated document keeps its ID and its
    content. *)
Definition docs_kept (h h' : heap) : Prop :=
  forall p d, documents_at h !! p = Some d ->
    exists d', documents_at h' !! p = Some d' /\ ID d' = ID d /\ Content d' = Content d.

(** The document of the repository's tests and the heap that holds it
    at address 1 before it is added. *)
Definition testDocument : Document :=
  {| ID := "1"; Metadata := ∅; Segments := []; Content := "This is a test document." |}.

Definition testHeap : heap :=
  {| segments_at := ∅; documents_at := {[ 1%positive := testDocument ]} |}.

(** [res.Document.ID], when the document is allocated. *)
Definition resultDocID (h : heap) (r : Result) : option string :=
  ID <$> (documents_at h !! Result_Document r).

(** [m] is a merge of the results [seen]: under each key it holds a
    result of [seen] of the document with that ID which no result of
    [seen] of that document exceeds in similarity, and every document of
    [seen] has its key. *)
Definition merged (h : heap) (seen : list Result) (m : gmap string Result) : Prop :=
  (forall k r, m !! k = Some r ->
     r ∈ seen /\ resultDocID h r = Some k /\
     forall r', r' ∈ seen -> resultDocID h r' = Some k ->
       fgt (Result_Similarity r') (Result_Similarity r) = false) /\
  (forall r' k, r' ∈ seen -> resultDocID h r' = Some k -> is_Some (m !! k)).

Definition allocated (h : heap) (results : list Result) : Prop :=
  Forall (fun r => is_Some (documents_at h !! Result_Document r)) results.

(** ** A collection to merge two queries on

    One document "X" of two segments with the embeddings (1, 0) and
    (0, 1). The embedding function maps the query "A" to (3, 4), closest
    to the second segment, and every other query to (1, 0), the first
    segment. *)

Definition twoQueryEmbeddingFunc : EmbeddingFunc := fun inputs _ =>
  match inputs with
  | [query] => if String.eqb query "A" then Ok [[3; 4]%float] else Ok [[1; 0]%float]
  | _ => Ok []
  end.

Definition mergeCollection : Collection :=
  {| Name := "merge"; metadata := ∅; documents := {[ "X"%string := 1%positive ]};
     embeddingFunc := twoQueryEmbeddingFunc;
     embeddingDocumentType := "docType"; embeddingQueryType := "queryType";
     ChunkSize := 100; ChunkOverlap := 10 |}.

Definition mergeHeap : heap :=
  {| segments_at := {[ 1%positive := {| Text := "first"; Embedding := [1; 0]%float |};
                       2%positive := {| Text := "second"; Embedding := [0; 1]%float |} ]};
     documents_at := {[ 1%positive := {| ID := "X"; Metadata := ∅;
                                         Segments := [1%positive; 2%positive];
                                         Content := "first second" |} ]} |}.

(** ** "In stored order", for [AggregateResults]

    [firstDocument] is the document of the first result with the ID
    [docID]; [isMatched] says that some result of the document [docID]
    refers to the segment; [matchedSegments] are the matched segments of
    a [Segments] sequence with their index in it, in the order of the
    sequence; [storedOrderContent] joins their texts, each after a
    newline unless its index is 0. *)

Definition firstDocument (h : heap) (results : list Result) (docID : string) : option Document :=
  head (omap (fun r => d ← documents_at h !! Result_Document r;
                       if bool_decide (ID d = docID) then Some d else None) results).

Definition isMatched (h : heap) (results : list Result) (docID : string) (segment : ptr) : bool :=
  existsb (fun r => bool_decide (resultDocID h r = Some docID)
                    && bool_decide (Result_Segment r = segment)) results.

Definition matchedFrom (h : heap) (results : list Result) (docID : string)
    (indexed : list (nat * ptr)) : list (nat * ptr) :=
  filter (fun p => isMatched h results docID p.2 = true) indexed.

Definition matchedSegments (h : heap) (results : list Result) (docID : string)
    (segments : list ptr) : list (nat * ptr) :=
  matchedFrom h results docID (imap pair segments).

Definition segmentText (h : heap) (segment : ptr) : string :=
  default EmptyString (Text <$> (segments_at h !! segment)).

Definition joinTexts (h : heap) (indexed : list (nat * ptr)) : string :=
  foldr (fun p rest =>
           (if (0 <? p.1)%nat then newline else EmptyString) +:+ segmentText h p.2 +:+ rest)
        EmptyString indexed.

Definition storedOrderContent (h : heap) (results : list Result) (docID : string)
    (segments : list ptr) : string :=
  joinTexts h (matchedSegments h results docID segments).

(** The maps of [AggregateResults] hold what the first result of each
    document says. *)
Definition firstSeen (h : heap) (seen : list Result) (acc : aggregation) : Prop :=
  forall docID,
    docSegmentsMap acc !! docID = Segments <$> firstDocument h seen docID /\
    docMetadataMap acc !! docID = Metadata <$> firstDocument h seen docID.

(** ** The data of the test of [AggregateResults]

    Three documents (at the addresses 1, 2, 3) of three, three and one
    segment, and six results in the order of the test; the similarities
    are the binary fractions next to those of the test, in the same
    order. The formatter writes the ID and the content. *)

Definition aggregateHeap : heap :=
  {| segments_at :=
       {[ 11%positive := {| Text := "Hello1"; Embedding := [0.125; 0.25]%float |};
          12%positive := {| Text := "Not Wanted"; Embedding := [0.25; 0.5]%float |};
          13%positive := {| Text := "World2"; Embedding := [0.25; 0.375]%float |};
          21%positive := {| Text := "Foo1"; Embedding := [0.5; 0.625]%float |};
          22%positive := {| Text := "Bar2"; Embedding := [0.75; 0.875]%float |};
          23%positive := {| Text := "Baz3"; Embedding := [0.875; 0.125]%float |};
          31%positive := {| Text := "doc3 segment"; Embedding := [0.875; 0.125]%float |} ]};
     documents_at :=
       {[ 1%positive := {| ID := "doc1"; Metadata := ∅;
                           Segments := [11%positive; 12%positive; 13%positive];
                           Content := "Hello1 World2" |};
          2%positive := {| ID := "doc2"; Metadata := ∅;
                           Segments := [21%positive; 22%positive; 23%positive];
                           Content := "Foo1 Bar2 Baz3" |};
          3%positive := {| ID := "doc3"; Metadata := ∅;
                           Segments := [31%positive];
                           Content := "doc3 segment" |} ]} |}.

Definition aggregateTestData : list Result :=
  [ {| Result_Document := 2%positive; Result_Segment := 23%positive; Result_Similarity := 0.9375%float |};
    {| Result_Document := 1%positive; Result_Segment := 13%positive; Result_Similarity := 0.875%float |};
    {| Result_Document := 2%positive; Result_Segment := 21%positive; Result_Similarity := 0.8125%float |};
    {| Result_Document := 3%positive; Result_Segment := 31%positive; Result_Similarity := 0.75%float |};
    {| Result_Document := 1%positive; Result_Segment := 11%positive; Result_Similarity := 0.6875%float |};
    {| Result_Document := 2%positive; Result_Segment := 22%positive; Result_Similarity := 0.625%float |} ].

Definition plainFormatter : Formatter :=
  fun docID _ content => docID +:+ "|" +:+ content +:+ ";".




(** ** vector.go: the functions beside the ranker *)

(** The constant [1e-6] as the float64 it is compared as. *)
Definition isNormalizedPrecisionTolerance : float64 := 0x1.0c6f7a0b5ed8dp-20%float.

Definition isNormalized (v : list float64) : bool :=
  match v with
  | [] => false
  | _ =>
      let magnitude := PrimFloat.sqrt (sumSquares v) in
      PrimFloat.ltb (PrimFloat.abs (PrimFloat.sub magnitude 1)) isNormalizedPrecisionTolerance
  end.

(** [float64(n)] for an [int] that is not negative. *)
Definition float64_of_int (n : int) : float64 := PrimFloat.of_uint63 (Uint63.of_Z n).

(** [avgVec[i] += v] for every [i, v] of [vec]; the two have the same
    length when it runs. *)
Fixpoint addInto (avgVec vec : list float64) : list float64 :=
  match avgVec, vec with
  | a :: avgVec', v :: vec' => PrimFloat.add a v :: addInto avgVec' vec'
  | _, _ => avgVec
  end.

(** The first loop of [averageVectors]. *)
Fixpoint sumVectors (vecLen : nat) (avgVec : list float64) (vectors : list (list float64))
    : outcome (list float64) :=
  match vectors with
  | [] => Ok avgVec
  | vec :: rest =>
      if negb (length vec =? vecLen)%nat then Err "all vectors must have the same length"
      else sumVectors vecLen (addInto avgVec vec) rest
  end.

Definition averageVectors (vectors : list (list float64)) : outcome (list float64) :=
  match vectors with
  | [] => Err "no vectors to average"
  | first :: _ =>
      let vecLen := length first in
      avgVec ← sumVectors vecLen (replicate vecLen 0%float) vectors;
      Ok (map (fun a => PrimFloat.div a (float64_of_int (len vectors))) avgVec)
  end.

(** The loop of [cosineSimilarity] with its three sums. *)
Fixpoint cosineLoop (dotP normA normB : float64) (vec1 vec2 : list float64)
    : float64 * float64 * float64 :=
  match vec1, vec2 with
  | a :: vec1', b :: vec2' =>
      cosineLoop (PrimFloat.add dotP (PrimFloat.mul a b))
                 (PrimFloat.add normA (PrimFloat.mul a a))
                 (PrimFloat.add normB (PrimFloat.mul b b)) vec1' vec2'
  | _, _ => (dotP, normA, normB)
  end.

Definition cosineSimilarity (vec1 vec2 : list float64) : outcome float64 :=
  if negb (length vec1 =? length vec2)%nat then Err "vectors must have the same length"
  else
    let '(dotP, normA, normB) := cosineLoop 0%float 0%float 0%float vec1 vec2 in
    if PrimFloat.eqb normA 0%float || PrimFloat.eqb normB 0%float
    then Err "cannot calculate cosine similarity with zero vectors"
    else Ok (PrimFloat.div dotP (PrimFloat.mul (PrimFloat.sqrt normA) (PrimFloat.sqrt normB))).

(** From [h] to [h'] nothing is lost: a segment that was allocated is
    still there, unchanged, and a document that was allocated has the
    same ID, metadata and content and its segments of before at the
    front of its segments. *)
Definition heap_extends (h h' : heap) : Prop :=
  (forall q s, segments_at h !! q = Some s -> segments_at h' !! q = Some s) /\
  (forall p d, documents_at h !! p = Some d ->
     exists d', documents_at h' !! p = Some d' /\
                ID d' = ID d /\ Metadata d' = Metadata d /\ Content d' = Content d /\
                Segments d `prefix_of` Segments d').


(** What [EmbedDocuments] makes of the document at [p] that was [d]:
    in [h'] it has, behind the segments of [d], one new segment for each
    chunk of the content of [d], holding the chunk and the normalized
    vector of the same index. *)
Definition embeddedFrom `{GoRuntime} (c : Collection) (d : Document) (h' : heap) (p : ptr)
    : Prop :=
  exists segments embeddings new,
    Content d <> EmptyString /\
    splitText c (Content d) = Ok segments /\
    embeddingFunc c segments (embeddingDocumentType c) = Ok embeddings /\
    length new = length segments /\
    Segments <$> (documents_at h' !! p) = Some (Segments d ++ new) /\
    forall j q, new !! j = Some q ->
      exists text e norm,
        segments !! j = Some text /\ embeddings !! j = Some e /\
        normalizeVector e = Ok norm /\
        segments_at h' !! q = Some {| Text := text; Embedding := norm |}.

(** ** The segments a search ranges over

    A slot is a stored segment with its place: the ID its document is
    stored under, the document, the index in its [Segments] and the
    segment. [storeSlots] lists the slots of the documents [docs],
    [segmentCount] counts those of a collection. [searchable c h n]: the
    stored documents and their segments are allocated, every embedding
    has [n] components, and the index of a segment fits an [int]. *)

Definition slot : Type := string * ptr * nat * ptr.

Definition documentSlots (h : heap) (kv : string * ptr) : list slot :=
  match documents_at h !! kv.2 with
  | Some d => imap (fun i seg => (kv.1, kv.2, i, seg)) (Segments d)
  | None => []
  end.

Definition storeSlots (h : heap) (docs : list (string * ptr)) : list slot :=
  flat_map (documentSlots h) docs.

Definition segmentCount (c : Collection) (h : heap) : nat :=
  length (storeSlots h (map_to_list (documents c))).

Definition slotCandidate (h : heap) (sl : slot) (cand : list float64 * string) : Prop :=
  exists s, segments_at h !! sl.2 = Some s /\
            cand = (Embedding s, compositeID sl.1.1.1 (Z.of_nat sl.1.2)).

Definition searchable (c : Collection) (h : heap) (n : nat) : Prop :=
  forall id p, documents c !! id = Some p ->
    exists d, documents_at h !! p = Some d /\ len (Segments d) <= MaxInt /\
      forall seg, seg ∈ Segments d ->
        exists s, segments_at h !! seg = Some s /\ length (Embedding s) = n.

(** The entry of the ranking for a candidate and the normalized query. *)
Definition scoreOf (q : list float64) (cand : list float64 * string) : Similarity :=
  {| Similarity_ID := cand.2; Similarity_Score := dotLoop 0%float q cand.1 |}.

(** The documents some result of [results] belongs to, each once. *)
Definition resultDocuments (h : heap) (results : list Result) : list (option string) :=
  remove_dups (map (resultDocID h) results).



(** * Properties *)

(** ** The order of float64 *)

Lemma SFltb_key x y :
  x <> S754_nan -> y <> S754_nan ->
  SFltb x y = true <-> key_lt (sf_key x) (sf_key y).
Proof.
  intros Hx Hy. unfold SFltb, SFcompare.
  destruct x as [sx|sx| |sx mx ex], y as [sy|sy| |sy my ey]; try congruence;
    repeat match goal with s : bool |- _ => destruct s end; cbn;
    try (split; try reflexivity; try discriminate; lia).
  all: destruct (Z.compare_spec ex ey);
       try (split; try reflexivity; try discriminate; lia).
  all: change (Pos.compare_cont Eq mx my) with (Pos.compare mx my);
       destruct (Pos.compare_spec mx my); cbn;
       split; try reflexivity; try discriminate; lia.
Qed.

Lemma SFltb_nan_r x : SFltb x S754_nan = false.
Proof. destruct x; reflexivity. Qed.

Lemma is_nan_Prim2SF (x : float) : PrimFloat.is_nan x = false <-> Prim2SF x <> S754_nan.
Proof.
  unfold PrimFloat.is_nan. rewrite FloatAxioms.eqb_spec. unfold SFeqb, SFcompare.
  destruct (Prim2SF x) as [s|s| |s m e]; try destruct s; cbn;
    rewrite ?Z.compare_refl, ?Pos.compare_cont_refl; cbn; split; congruence.
Qed.

Lemma SFltb_not_nan x y : SFltb x y = true -> x <> S754_nan /\ y <> S754_nan.
Proof.
  intros H; split; intros ->; [discriminate | rewrite SFltb_nan_r in H; discriminate].
Qed.

Lemma fgt_trans (x y z : float64) :
  fgt x y = true -> fgt y z = true -> fgt x z = true.
Proof.
  unfold fgt. rewrite !FloatAxioms.ltb_spec. intros Hxy Hyz.
  destruct (SFltb_not_nan _ _ Hxy) as [? ?], (SFltb_not_nan _ _ Hyz) as [? ?].
  rewrite SFltb_key in * by assumption. revert Hxy Hyz. unfold key_lt.
  destruct (sf_key (Prim2SF x)) as [[? ?] ?], (sf_key (Prim2SF y)) as [[? ?] ?],
    (sf_key (Prim2SF z)) as [[? ?] ?]. lia.
Qed.

Lemma fgt_asym (x y : float64) : fgt x y = true -> fgt y x = false.
Proof.
  unfold fgt. rewrite !FloatAxioms.ltb_spec. intros Hxy.
  destruct (SFltb (Prim2SF x) (Prim2SF y)) eqn:E; [|reflexivity]. exfalso.
  destruct (SFltb_not_nan _ _ Hxy) as [? ?].
  rewrite SFltb_key in * by assumption. revert Hxy E. unfold key_lt.
  destruct (sf_key (Prim2SF x)) as [[? ?] ?], (sf_key (Prim2SF y)) as [[? ?] ?]. lia.
Qed.

Lemma fgt_irrefl (x : float64) : fgt x x = false.
Proof.
  destruct (fgt x x) eqn:E; [|reflexivity].
  pose proof (fgt_asym _ _ E). congruence.
Qed.

(** Not being greater is transitive through a float that is not NaN. *)
Lemma fgt_negtrans (x y z : float64) :
  PrimFloat.is_nan y = false ->
  fgt y x = false -> fgt z y = false -> fgt z x = false.
Proof.
  unfold fgt. rewrite is_nan_Prim2SF, !FloatAxioms.ltb_spec. intros Hy H1 H2.
  destruct (SFltb (Prim2SF x) (Prim2SF z)) eqn:E; [|reflexivity]. exfalso.
  destruct (SFltb_not_nan _ _ E) as [Hx Hz].
  apply SFltb_key in E; [|assumption..].
  assert (H1' : ~ key_lt (sf_key (Prim2SF x)) (sf_key (Prim2SF y))).
  { intros K. apply SFltb_key in K; congruence. }
  assert (H2' : ~ key_lt (sf_key (Prim2SF y)) (sf_key (Prim2SF z))).
  { intros K. apply SFltb_key in K; congruence. }
  revert E H1' H2'. unfold key_lt.
  destruct (sf_key (Prim2SF x)) as [[? ?] ?], (sf_key (Prim2SF y)) as [[? ?] ?],
    (sf_key (Prim2SF z)) as [[? ?] ?]. lia.
Qed.

(** Between floats that are not NaN, "not greater" is "at most". *)
Lemma fgt_false_leb (x y : float64) :
  PrimFloat.is_nan x = false -> PrimFloat.is_nan y = false ->
  fgt y x = false -> PrimFloat.leb y x = true.
Proof.
  unfold fgt.
  rewrite !is_nan_Prim2SF, FloatAxioms.ltb_spec, FloatAxioms.leb_spec.
  unfold SFltb, SFleb. intros Hx Hy.
  destruct (Prim2SF x) as [sx|sx| |sx mx ex], (Prim2SF y) as [sy|sy| |sy my ey];
    try congruence;
    repeat match goal with s : bool |- _ => destruct s end; cbn; try congruence.
  all: rewrite (Z.compare_antisym ex ey); destruct (Z.compare ex ey) eqn:Ec;
    cbn; try congruence.
  all: change (Pos.compare_cont Eq ?a ?b) with (Pos.compare a b);
    rewrite (Pos.compare_antisym mx my); destruct (Pos.compare mx my); cbn; congruence.
Qed.

(** ** [sort.Slice] *)

Section Sorting.
Context {A : Type} (less : A -> A -> bool).

Lemma insertRev_perm x racc : insertRev less x racc ≡ₚ x :: racc.
Proof.
  induction racc as [|p racc IH]; simpl; [done|].
  destruct (less x p); [|done].
  rewrite IH. apply perm_swap.
Qed.

Lemma foldl_insertRev_perm data racc :
  foldl (fun racc x => insertRev less x racc) racc data ≡ₚ data ++ racc.
Proof.
  revert racc. induction data as [|x data IH]; intros racc; simpl; [done|].
  rewrite IH, insertRev_perm. by rewrite Permutation_middle.
Qed.

Lemma insertionSort_perm data : insertionSort less data ≡ₚ data.
Proof.
  unfold insertionSort. rewrite <- Permutation_rev, foldl_insertRev_perm.
  by rewrite app_nil_r.
Qed.

Lemma sortSlice_perm `{GoRuntime} data : sortSlice less data ≡ₚ data.
Proof. unfold sortSlice. by rewrite insertionSort_perm, shuffle_perm. Qed.

Lemma Sorted_snoc (R : A -> A -> Prop) l x :
  Sorted R l -> (forall y, last l = Some y -> R y x) -> Sorted R (l ++ [x]).
Proof.
  induction 1 as [|a l Hl IH Hd]; intros Hlast; simpl.
  - repeat constructor.
  - constructor.
    + apply IH. intros y Hy. apply Hlast. destruct l; [discriminate | exact Hy].
    + destruct Hd as [|b l' Hab]; simpl; constructor; [|done].
      apply Hlast. reflexivity.
Qed.

Lemma Sorted_rev (R : A -> A -> Prop) l :
  Sorted R l -> Sorted (flip R) (rev l).
Proof.
  induction 1 as [|a l Hl IH Hd]; simpl; [constructor|].
  apply Sorted_snoc; [done|].
  intros y Hy. unfold flip.
  destruct Hd as [|b l' Hab]; simpl in Hy.
  - discriminate.
  - rewrite last_snoc in Hy. by injection Hy as <-.
Qed.

Hypothesis less_asym : forall a b, less a b = true -> less b a = false.

Lemma insertRev_sorted x racc :
  Sorted (fun a b => less a b = false) racc ->
  Sorted (fun a b => less a b = false) (insertRev less x racc).
Proof.
  induction 1 as [|p racc Hs IH Hd]; simpl; [repeat constructor|].
  destruct (less x p) eqn:Hxp.
  - constructor; [done|].
    destruct Hd as [|q racc' Hpq]; simpl.
    + constructor. by apply less_asym.
    + destruct (less x q); constructor; [done | by apply less_asym].
  - constructor; [by constructor | by constructor].
Qed.

Lemma foldl_insertRev_sorted data racc :
  Sorted (fun a b => less a b = false) racc ->
  Sorted (fun a b => less a b = false) (foldl (fun racc x => insertRev less x racc) racc data).
Proof.
  revert racc. induction data as [|x data IH]; intros racc Hs; simpl; [done|].
  apply IH. by apply insertRev_sorted.
Qed.

Lemma insertionSort_ordered data : ordered less (insertionSort less data).
Proof.
  unfold ordered, insertionSort.
  apply (Sorted_rev (fun a b => less a b = false)).
  apply foldl_insertRev_sorted. constructor.
Qed.

Lemma sortSlice_ordered `{GoRuntime} data : ordered less (sortSlice less data).
Proof. apply insertionSort_ordered. Qed.

End Sorting.


(** A list of scores in which no score exceeds the one before it is in
    descending order when none of them is NaN. *)
Lemma ordered_descending {A} (f : A -> float64) (l : list A) :
  ordered (fun a b => fgt (f a) (f b)) l ->
  noNaN (map f l) ->
  descending (map f l).
Proof.
  unfold ordered, noNaN, descending.
  induction 1 as [|a l Hs IH Hd]; intros Hn; simpl; [constructor|].
  simpl in Hn. apply Forall_cons in Hn as [Ha Hn].
  constructor; [by apply IH|].
  clear IH. revert a Ha Hd. induction Hs as [|b l Hs IH Hd']; intros a Ha Hd; simpl; [constructor|].
  simpl in Hn. apply Forall_cons in Hn as [Hb Hn].
  apply HdRel_inv in Hd.
  constructor; [by apply fgt_false_leb|].
  specialize (IH Hn b Hb Hd').
  assert (Hall : Forall (fun c => fgt c (f b) = false) (map f l)).
  { clear -Hs Hd' Hn Hb. revert b Hb Hd'. induction Hs as [|c l Hs IH Hd'']; intros b Hb Hd'; simpl; [constructor|].
    simpl in Hn. apply Forall_cons in Hn as [Hc Hn]. apply HdRel_inv in Hd'.
    constructor; [done|].
    eapply Forall_impl; [apply (IH Hn c Hc Hd'')|].
    intros z Hz. simpl in Hz. by apply (fgt_negtrans (f b) (f c) z). }
  rewrite Forall_forall in Hall. rewrite Forall_forall in Hn.
  apply Forall_forall. intros z Hz.
  apply fgt_false_leb; [done | by apply Hn |].
  apply (fgt_negtrans (f a) (f b) z); [done..|]. by apply Hall.
Qed.

(** ** The similarity ranker *)

(** Steps through a bind of [outcome] whose first part is a value. *)
Ltac obind := unfold mbind, outcome_bind; cbv beta iota.

Lemma normalizeVector_nonzero vector :
  PrimFloat.eqb (sumSquares vector) 0 = false ->
  exists norm, normalizeVector vector = Ok norm.
Proof. intros Hz. unfold normalizeVector. rewrite Hz. eauto. Qed.


Lemma similarityLess_asym a b : similarityLess a b = true -> similarityLess b a = false.
Proof. apply fgt_asym. Qed.


Lemma slicePrefix_Ok {A} (s : list A) n :
  0 <= n <= len s -> slicePrefix s n = Ok (take (Z.to_nat n) s).
Proof.
  intros Hn. unfold slicePrefix.
  destruct (n <? 0) eqn:E1; [lia|]. destruct (len s <? n) eqn:E2; [lia|]. done.
Qed.

Lemma slicePrefix_inv {A} (s r : list A) n :
  slicePrefix s n = Ok r -> 0 <= n <= len s /\ r = take (Z.to_nat n) s.
Proof.
  unfold slicePrefix.
  destruct (n <? 0) eqn:E1; [discriminate|]. destruct (len s <? n) eqn:E2; [discriminate|].
  intros [= <-]. split; [lia | done].
Qed.




(** C2: the specification has a candidate whose dot product fails left
    out of the result. Here the second candidate has three components
    and the query two; its slot stays the zero [Similarity], is sorted
    with the scores and is returned: an entry with the empty ID and the
    score 0 that was computed for no candidate. *)
Lemma getTopNSimilarEmbeddings_failed_slot :
  @getTopNSimilarEmbeddings ascii_runtime [1; 0]%float [[1; 0]; [1; 0; 0]]%float
    ["a_0"; "b_0"] 2
  = Ok [ {| Similarity_ID := "a_0"; Similarity_Score := 1%float |}; zeroSimilarity ].
Proof. vm_compute. reflexivity. Qed.

(** ** Candidate identifiers *)

Lemma digitChar_spec d :
  0 <= d <= 9 ->
  isDigit (digitChar d) = true /\
  Z.of_N (Ascii.N_of_ascii (digitChar d)) - 48 = d /\
  Ascii.eqb (digitChar d) "_" = false.
Proof.
  intros Hd.
  assert (d = 0 \/ d = 1 \/ d = 2 \/ d = 3 \/ d = 4 \/ d = 5 \/ d = 6 \/ d = 7 \/ d = 8 \/ d = 9)
    as Hcases by lia.
  repeat (destruct Hcases as [->|Hcases]); try subst d; repeat split; reflexivity.
Qed.

Lemma parseDigits_fmtDigits fuel u rest :
  (0 < fuel)%nat -> 0 <= u < 10 ^ Z.of_nat fuel ->
  parseDigits (fmtDigits fuel u rest) 0 = parseDigits rest u.
Proof.
  revert u rest. induction fuel as [|fuel IH]; intros u rest Hfuel Hu; [lia|].
  simpl fmtDigits. destruct (Z.ltb_spec u 10) as [Hlt|Hge].
  - simpl. destruct (digitChar_spec u) as (-> & -> & _); [lia|]. done.
  - assert (0 < fuel)%nat.
    { destruct fuel; [|lia]. change (10 ^ Z.of_nat 1) with 10 in Hu. lia. }
    rewrite IH; [|done|].
    + simpl. destruct (digitChar_spec (u mod 10)) as (-> & -> & _).
      { pose proof (Z.mod_pos_bound u 10). lia. }
      f_equal. pose proof (Z.div_mod u 10). lia.
    + rewrite Nat2Z.inj_succ, Z.pow_succ_r in Hu by lia.
      split; [apply Z.div_pos; lia|]. apply Z.div_lt_upper_bound; lia.
Qed.

Lemma fmtDigits_digitString fuel u rest :
  (0 < fuel)%nat -> 0 <= u ->
  rest = EmptyString \/ digitString rest ->
  digitString (fmtDigits fuel u rest).
Proof.
  revert u rest. induction fuel as [|fuel IH]; intros u rest Hfuel Hu Hrest; [lia|].
  assert (Hcons : forall d, 0 <= d <= 9 -> digitString (String (digitChar d) rest)).
  { intros d Hd. destruct Hrest as [->|Hrest]; by constructor. }
  simpl. destruct (Z.ltb_spec u 10) as [Hlt|Hge]; [apply Hcons; lia|].
  assert (Hmod : 0 <= u mod 10 <= 9) by (pose proof (Z.mod_pos_bound u 10); lia).
  destruct fuel as [|fuel]; [by apply Hcons|].
  apply IH; [lia | apply Z.div_pos; lia | right; by apply Hcons].
Qed.

Lemma lastIndexFrom_digitString s i last :
  digitString s -> lastIndexFrom "_" s i last = last.
Proof.
  intros Hs. revert i. induction Hs as [d Hd|d s Hd Hs IH]; intros i; simpl;
    destruct (digitChar_spec d Hd) as (_ & _ & ->); [done | apply IH].
Qed.

Lemma lastIndexFrom_app sep s1 s2 i last :
  lastIndexFrom sep (s1 +:+ s2) i last
  = lastIndexFrom sep s2 (i + Z.of_nat (String.length s1)) (lastIndexFrom sep s1 i last).
Proof.
  revert i last. induction s1 as [|a s1 IH]; intros i last; simpl.
  - by rewrite Z.add_0_r.
  - rewrite IH. f_equal. lia.
Qed.

Lemma string_length_app (s1 s2 : string) :
  String.length (s1 +:+ s2) = (String.length s1 + String.length s2)%nat.
Proof. induction s1 as [|a s1 IH]; simpl; [done | by rewrite IH]. Qed.

Lemma substring_all (s : string) : String.substring 0 (String.length s) s = s.
Proof. induction s as [|a s IH]; simpl; [done | by rewrite IH]. Qed.

Lemma substring_app_l (s1 s2 : string) :
  String.substring 0 (String.length s1) (s1 +:+ s2) = s1.
Proof.
  induction s1 as [|a s1 IH]; simpl; [by destruct s2 | by rewrite IH].
Qed.

Lemma substring_app_r (s1 s2 : string) n m :
  String.substring (String.length s1 + n) m (s1 +:+ s2) = String.substring n m s2.
Proof. induction s1 as [|a s1 IH]; simpl; done. Qed.

Lemma Atoi_digitString s n :
  digitString s -> parseDigits s 0 = Some n -> 0 <= n <= MaxInt -> Atoi s = Ok n.
Proof.
  intros Hs Hparse Hn.
  assert (Hhead : exists d rest, 0 <= d <= 9 /\ s = String (digitChar d) rest).
  { destruct Hs; eauto. }
  destruct Hhead as (d & rest & Hd & ->).
  assert (Hbody : Atoi (String (digitChar d) rest)
                  = match parseDigits (String (digitChar d) rest) 0 with
                    | None => Err "strconv.Atoi: invalid syntax"
                    | Some n => if (n <? MinInt) || (MaxInt <? n)
                                then Err "strconv.Atoi: value out of range" else Ok n
                    end).
  { assert (d = 0 \/ d = 1 \/ d = 2 \/ d = 3 \/ d = 4 \/ d = 5 \/ d = 6 \/ d = 7 \/ d = 8 \/ d = 9)
      as Hcases by lia.
    repeat (destruct Hcases as [->|Hcases]); try subst d; reflexivity. }
  rewrite Hbody, Hparse.
  unfold MinInt, MaxInt in *.
  destruct (Z.ltb_spec n (- 2 ^ 63)); [lia|].
  destruct (Z.ltb_spec (2 ^ 63 - 1) n); [lia|]. done.
Qed.

Lemma LastIndex_composite docID ds :
  digitString ds ->
  LastIndex (docID +:+ String "_" ds) "_" = Z.of_nat (String.length docID).
Proof.
  intros Hds. unfold LastIndex. rewrite lastIndexFrom_app. simpl.
  by rewrite lastIndexFrom_digitString.
Qed.

(** C4: composing the candidate identifier of a document ID (underscores
    allowed) and a segment index that is not negative, then parsing it
    at its last underscore, gives back the two. *)
Theorem parseIDAndSegmentIndex_compositeID docID i :
  0 <= i <= MaxInt ->
  parseIDAndSegmentIndex (compositeID docID i) = Ok (docID, i).
Proof.
  intros Hi. unfold compositeID, fmtInteger.
  destruct (Z.ltb_spec i 0) as [|_]; [lia|].
  set (ds := fmtDigits 20 i EmptyString).
  assert (Hds : digitString ds) by (apply fmtDigits_digitString; [lia | lia | by left]).
  assert (Hparse : parseDigits ds 0 = Some i).
  { unfold ds. rewrite parseDigits_fmtDigits; [done | lia |].
    unfold MaxInt in Hi. change (10 ^ Z.of_nat 20) with 100000000000000000000. lia. }
  change ("_" +:+ ds) with (String "_" ds).
  unfold parseIDAndSegmentIndex. rewrite (LastIndex_composite docID ds Hds).
  destruct (Z.eqb_spec (Z.of_nat (String.length docID)) (-1)) as [|_]; [lia|].
  rewrite Nat2Z.id, substring_app_l.
  replace (Z.to_nat (Z.of_nat (String.length docID) + 1)) with (String.length docID + 1)%nat by lia.
  rewrite substring_app_r, string_length_app. simpl String.length.
  replace (String.length docID + S (String.length ds) - (String.length docID + 1))%nat
    with (String.length ds) by lia.
  simpl String.substring. rewrite substring_all.
  rewrite (Atoi_digitString ds i) by done. done.
Qed.

(** C4 at a document ID with an underscore. *)
Lemma parseIDAndSegmentIndex_compositeID_witness :
  0 <= 12 <= MaxInt /\
  parseIDAndSegmentIndex (compositeID "report_2023" 12) = Ok ("report_2023"%string, 12).
Proof.
  split; [unfold MaxInt; lia|].
  apply (parseIDAndSegmentIndex_compositeID "report_2023" 12). unfold MaxInt. lia.
Defined.

(** ** The segmenter *)

Lemma wrap_id z : MinInt <= z <= MaxInt -> wrap z = z.
Proof.
  unfold wrap, MinInt, MaxInt. intros Hz.
  rewrite Z.mod_small; lia.
Qed.

Section Segmenter.
Context `{GoRuntime}.
Variables (S O : Z) (runes : list Z).
Hypothesis HS : 0 < S.
Hypothesis HO : 0 <= O < S.
Hypothesis Hfit : len runes + S <= MaxInt.

Lemma windowCount_0 i : len runes <= i -> windowCount S O (len runes - i) = 0%nat.
Proof.
  intros Hi. unfold windowCount.
  destruct (Z.le_gt_cases 0 ((len runes - i + (S - O) - 1) / (S - O))) as [Hq|Hq]; [|lia].
  assert ((len runes - i + (S - O) - 1) / (S - O) < 1); [|lia].
  apply Z.div_lt_upper_bound; lia.
Qed.

Lemma windowCount_S i :
  i < len runes ->
  windowCount S O (len runes - i)
  = Datatypes.S (windowCount S O (len runes - (i + (S - O)))).
Proof.
  intros Hi. unfold windowCount.
  replace (len runes - i + (S - O) - 1)
    with ((len runes - (i + (S - O)) + (S - O) - 1) + 1 * (S - O)) by lia.
  rewrite Z.div_add by lia.
  rewrite Z2Nat.inj_add; [simpl; lia | | lia].
  apply Z.div_pos; lia.
Qed.

Lemma splitTextLoop_windows m : forall fuel i chunks,
  0 <= i ->
  m = windowCount S O (len runes - i) ->
  (m <= fuel)%nat ->
  splitTextLoop fuel S O runes i chunks
  = Ok (chunks ++ map (fun k => string_of_runes (window runes S (i + Z.of_nat k * (S - O))))
                      (seq 0 m)).
Proof.
  induction m as [|m IH]; intros fuel i chunks Hi Hm Hfuel.
  - assert (len runes <= i).
    { destruct (Z.le_gt_cases (len runes) i) as [|Hlt]; [done|].
      rewrite windowCount_S in Hm by done. discriminate. }
    destruct fuel; simpl; destruct (Z.ltb_spec i (len runes)); try lia;
      by rewrite app_nil_r.
  - assert (i < len runes).
    { destruct (Z.le_gt_cases (len runes) i) as [Hge|]; [|done].
      rewrite windowCount_0 in Hm by done. discriminate. }
    rewrite windowCount_S in Hm by done. injection Hm as Hm.
    destruct fuel as [|fuel]; [lia|]. simpl splitTextLoop.
    destruct (Z.ltb_spec i (len runes)); [|lia].
    unfold int_add, int_sub.
    assert (Hlen : 0 <= len runes) by (unfold len; lia).
    rewrite (wrap_id (i + S)) by (unfold MinInt, MaxInt in *; lia).
    rewrite (wrap_id (S - O)) by (unfold MinInt, MaxInt in *; lia).
    rewrite (wrap_id (i + (S - O))) by (unfold MinInt, MaxInt in *; lia).
    set (end_ := if len runes <? i + S then len runes else i + S).
    assert (Hend : end_ = Z.min (i + S) (len runes)).
    { unfold end_. destruct (Z.ltb_spec (len runes) (i + S)); lia. }
    unfold sliceRunes.
    destruct (Z.ltb_spec i 0); [lia|].
    destruct (Z.ltb_spec end_ i); [lia|].
    destruct (Z.ltb_spec (len runes) end_); [lia|].
    simpl orb. cbv iota. obind.
    rewrite (IH fuel (i + (S - O))); [|lia|done|lia].
    rewrite <- app_assoc. do 2 f_equal.
    change (seq 0 (Datatypes.S m)) with (0%nat :: seq 1 m).
    rewrite <- seq_shift, map_cons, map_map. cbn [app]. apply (f_equal2 cons).
    + replace (i + Z.of_nat 0 * (S - O)) with i by lia.
      unfold window. by rewrite Hend.
    + apply map_ext. intros k. f_equal. f_equal. lia.
Qed.


End Segmenter.

Lemma windowCount_le S O L : 0 < S -> 0 <= O < S -> 0 <= L -> (windowCount S O L <= Z.to_nat L)%nat.
Proof.
  intros HS HO HL. unfold windowCount. apply Z2Nat.inj_le; [apply Z.div_pos; lia | lia |].
  destruct (Z.eq_dec L 0) as [->|].
  - rewrite Z.div_small; lia.
  - apply Z.div_le_upper_bound; [lia | nia].
Qed.




(** ** The document store *)

(** C9: with no query at all the failed queries (none) are as many as
    the queries (none), and the call returns the error for "all queries
    failed", not an empty list. *)
Theorem GetTopNSimilarDocumentsForQueries_no_queries `{GoRuntime} c h topN :
  GetTopNSimilarDocumentsForQueries c h [] topN
  = Err "failed to get top N similar documents for all queries".
Proof. reflexivity. Qed.

(** C8: when [AddDocument] returns an error the collection is as it
    was: the document map is unchanged, nothing was inserted, and
    [Length] is the same. *)
Theorem AddDocument_error_unchanged `{GoRuntime} c h doc c' h' e :
  AddDocument c h doc = (c', h', Err e) ->
  c' = c /\ documents c' = documents c /\ Length c' = Length c.
Proof.
  unfold AddDocument. intros Hadd.
  assert (c' = c); [|by subst].
  destruct (documents_at h !! doc) as [d|]; [|by injection Hadd].
  repeat case_decide; try by injection Hadd.
  destruct (splitText c (Content d)) as [segments| | |]; try by injection Hadd.
  destruct (embeddingFunc c segments (embeddingDocumentType c)) as [embeddings| | |];
    try by injection Hadd.
  destruct (addSegments h doc segments 0 embeddings) as [h1 [[]| | |]];
    by injection Hadd.
Qed.

(** C8 at a document without content. *)
Lemma AddDocument_error_unchanged_witness :
  let h := {| segments_at := ∅;
              documents_at := {[ 2%positive := {| ID := "2"; Metadata := ∅; Segments := [];
                                                  Content := EmptyString |} ]} |} in
  @AddDocument ascii_runtime testCollection h 2%positive
  = (testCollection, h, Err "document content is required") /\
  testCollection = testCollection /\
  documents testCollection = documents testCollection /\
  Length testCollection = Length testCollection.
Proof.
  intros h. split; [reflexivity|].
  apply (@AddDocument_error_unchanged ascii_runtime testCollection h 2%positive
           testCollection h "document content is required").
  reflexivity.
Defined.

Lemma docs_kept_refl h : docs_kept h h.
Proof. intros p d Hd. eauto. Qed.

Lemma docs_kept_trans h1 h2 h3 : docs_kept h1 h2 -> docs_kept h2 h3 -> docs_kept h1 h3.
Proof.
  intros H12 H23 p d Hd.
  destruct (H12 p d Hd) as (d2 & Hd2 & Hid2 & Hc2).
  destruct (H23 p d2 Hd2) as (d3 & Hd3 & Hid3 & Hc3).
  exists d3. split; [done|]. split; congruence.
Qed.

Lemma appendSegment_docs_kept h doc seg : docs_kept h (appendSegment h doc seg).
Proof.
  intros p d Hd. unfold appendSegment. simpl.
  rewrite lookup_alter. case_decide as Hp.
  - subst p. rewrite Hd. simpl. eauto.
  - eauto.
Qed.

Lemma newSegment_docs_kept h s p h' : newSegment h s = (p, h') -> docs_kept h h'.
Proof. intros [= _ <-]. intros q d Hd. simpl. eauto. Qed.

Lemma newSegment_append_docs_kept h s doc :
  docs_kept h (appendSegment (newSegment h s).2 doc (newSegment h s).1).
Proof.
  eapply docs_kept_trans; [|apply appendSegment_docs_kept].
  by apply (newSegment_docs_kept h s (newSegment h s).1).
Qed.

Lemma addSegments_docs_kept doc segments embeddings : forall h i h' r,
  addSegments h doc segments i embeddings = (h', r) -> docs_kept h h'.
Proof.
  induction embeddings as [|e rest IH]; intros h i h' r; simpl.
  - intros [= <- _]. apply docs_kept_refl.
  - destruct (normalizeVector e) as [norm| | |];
      try (intros [= <- _]; apply docs_kept_refl).
    destruct (segments !! i) as [text|]; [|intros [= <- _]; apply docs_kept_refl].
    intros Hrest. apply IH in Hrest.
    eapply docs_kept_trans; [|exact Hrest].
    apply newSegment_append_docs_kept.
Qed.

Lemma embedSegments_docs_kept doc embeddings segments : forall h i h' r,
  embedSegments h doc embeddings i segments = (h', r) -> docs_kept h h'.
Proof.
  induction segments as [|text rest IH]; intros h i h' r; simpl.
  - intros [= <- _]. apply docs_kept_refl.
  - destruct (embeddings !! i) as [e|]; [|intros [= <- _]; apply docs_kept_refl].
    intros Hrest. apply IH in Hrest.
    eapply docs_kept_trans; [|exact Hrest].
    apply newSegment_append_docs_kept.
Qed.

Lemma embedDocument_docs_kept `{GoRuntime} c h doc h' r :
  embedDocument c h doc = (h', r) -> docs_kept h h'.
Proof.
  unfold embedDocument.
  destruct (documents_at h !! doc) as [d|]; [|intros [= <- _]; apply docs_kept_refl].
  case_decide; [intros [= <- _]; apply docs_kept_refl|].
  destruct (splitText c (Content d)) as [segments| | |];
    try (intros [= <- _]; apply docs_kept_refl).
  destruct (embeddingFunc c segments (embeddingDocumentType c)) as [embeddings| | |];
    try (intros [= <- _]; apply docs_kept_refl).
  destruct (normalizeAll embeddings) as [normalized| | |];
    try (intros [= <- _]; apply docs_kept_refl).
  apply embedSegments_docs_kept.
Qed.

Lemma embedAll_docs_kept `{GoRuntime} c docs : forall h h' r,
  embedAll c h docs = (h', r) -> docs_kept h h'.
Proof.
  induction docs as [|[id doc] rest IH]; intros h h' r; simpl.
  - intros [= <- _]. apply docs_kept_refl.
  - destruct (embedDocument c h doc) as [h1 r1] eqn:Hdoc.
    apply embedDocument_docs_kept in Hdoc.
    destruct r1 as [[]| | |]; try (intros [= <- _]; done).
    intros Hrest. eapply docs_kept_trans; [done | by eapply IH].
Qed.

Lemma store_inv_docs_kept c h h' : store_inv c h -> docs_kept h h' -> store_inv c h'.
Proof.
  intros Hinv Hkept id p Hp.
  destruct (Hinv id p Hp) as (d & Hd & Hid & Hne & Hc).
  destruct (Hkept p d Hd) as (d' & Hd' & Hid' & Hc').
  exists d'. repeat split; [done | congruence | done | congruence].
Qed.

Lemma store_inv_insert c h doc d :
  store_inv c h ->
  documents_at h !! doc = Some d -> ID d <> EmptyString -> Content d <> EmptyString ->
  store_inv (set_documents c (<[ID d := doc]> (documents c))) h.
Proof.
  intros Hinv Hd Hid Hc id p. simpl. rewrite lookup_insert. case_decide as Hk.
  - intros [= <-]. subst id. eauto.
  - apply Hinv.
Qed.

(** C10: every stored document has an ID that is not empty and is the
    key it is stored under, and a content that is not empty. This holds
    for the collection [NewCollection] returns and is kept by
    [AddDocument], [UpdateDocument], [DeleteDocument] and
    [EmbedDocuments], whatever they return. *)
Theorem store_inv_preserved `{GoRuntime} :
  (forall name docType queryType chunkSize chunkOverlap f c h,
     NewCollection name docType queryType chunkSize chunkOverlap f = Ok c ->
     store_inv c h) /\
  (forall c h doc c' h' r,
     store_inv c h -> AddDocument c h doc = (c', h', r) -> store_inv c' h') /\
  (forall c h doc c' r,
     store_inv c h -> UpdateDocument c h doc = (c', r) -> store_inv c' h) /\
  (forall c h id c' r,
     store_inv c h -> DeleteDocument c id = (c', r) -> store_inv c' h) /\
  (forall c h h' r,
     store_inv c h -> EmbedDocuments c h = (h', r) -> store_inv c h').
Proof.
  split; [|split; [|split; [|split]]].
  - intros name docType queryType chunkSize chunkOverlap f c h. unfold NewCollection.
    destruct f as [f|]; [|done].
    repeat (case_match; try done).
    intros [= <-] id p. simpl. by rewrite lookup_empty.
  - intros c h doc c' h' r Hinv. unfold AddDocument.
    destruct (documents_at h !! doc) as [d|] eqn:Hd; [|by intros [= <- <- _]].
    case_decide as Hid; [by intros [= <- <- _]|].
    case_decide as Hdup; [by intros [= <- <- _]|].
    case_decide as Hc; [by intros [= <- <- _]|].
    destruct (splitText c (Content d)) as [segments| | |]; try by intros [= <- <- _].
    destruct (embeddingFunc c segments (embeddingDocumentType c)) as [embeddings| | |];
      try by intros [= <- <- _].
    destruct (addSegments h doc segments 0 embeddings) as [h1 r1] eqn:Hadd.
    apply addSegments_docs_kept in Hadd.
    destruct r1 as [[]| | |]; intros [= <- <- _];
      try by eapply store_inv_docs_kept.
    destruct (Hadd doc d Hd) as (d' & Hd' & Hid' & Hc').
    rewrite <- Hid'.
    apply store_inv_insert; [by eapply store_inv_docs_kept | done | congruence..].
  - intros c h doc c' r Hinv. unfold UpdateDocument.
    destruct (documents_at h !! doc) as [d|] eqn:Hd; [|by intros [= <- _]].
    repeat (case_decide; [by intros [= <- _]|]).
    intros [= <- _]. by apply store_inv_insert.
  - intros c h id c' r Hinv. unfold DeleteDocument.
    destruct (documents c !! id) as [p|]; intros [= <- _]; [|done].
    intros id' p'. simpl. rewrite lookup_delete. case_decide; [done | apply Hinv].
  - intros c h h' r Hinv Hembed.
    eapply store_inv_docs_kept; [done|]. by eapply embedAll_docs_kept.
Qed.

(** C10 on the scenario of the tests: the new collection, after the
    test document is added, and after [EmbedDocuments]. *)
Lemma store_inv_preserved_witness :
  store_inv testCollection testHeap /\
  store_inv (@AddDocument ascii_runtime testCollection testHeap 1%positive).1.1
            (@AddDocument ascii_runtime testCollection testHeap 1%positive).1.2 /\
  store_inv (@AddDocument ascii_runtime testCollection testHeap 1%positive).1.1
            (@EmbedDocuments ascii_runtime
               (@AddDocument ascii_runtime testCollection testHeap 1%positive).1.1
               (@AddDocument ascii_runtime testCollection testHeap 1%positive).1.2).1.
Proof.
  destruct (@store_inv_preserved ascii_runtime) as (Hnew & Hadd & _ & _ & Hembed).
  assert (H0 : store_inv testCollection testHeap).
  { apply (Hnew "test"%string "docType"%string "queryType"%string 100 10 (Some mockEmbeddingFunc)).
    reflexivity. }
  destruct (@AddDocument ascii_runtime testCollection testHeap 1%positive) as [[c1 h1] r1] eqn:E1.
  assert (H1 : store_inv c1 h1) by (eapply Hadd; [exact H0 | exact E1]).
  cbn [fst snd].
  destruct (@EmbedDocuments ascii_runtime c1 h1) as [h2 r2] eqn:E2.
  cbn [fst snd].
  split; [exact H0|]. split; [exact H1|].
  eapply Hembed; [exact H1 | exact E2].
Defined.

(** What the second loop of [EmbedDocuments] does to the document: one
    new segment per text, put after the segments it already has. *)
Lemma embedSegments_appends doc embeddings segments : forall h i h' d,
  embedSegments h doc embeddings i segments = (h', Ok tt) ->
  documents_at h !! doc = Some d ->
  exists new, length new = length segments /\
              Segments <$> (documents_at h' !! doc) = Some (Segments d ++ new).
Proof.
  induction segments as [|text rest IH]; intros h i h' d; simpl.
  - intros [= <-] Hd. exists []. rewrite Hd, app_nil_r. done.
  - destruct (embeddings !! i) as [e|]; [|done].
    intros Hrest Hd.
    eapply IH in Hrest as (new & Hlen & Hsegs).
    2:{ simpl. rewrite lookup_alter, decide_True, Hd by done. reflexivity. }
    simpl in Hsegs. rewrite <- app_assoc in Hsegs.
    eexists (_ :: new). split; [simpl; by rewrite Hlen | exact Hsegs].
Qed.

Lemma embedDocument_appends `{GoRuntime} c h doc h' d :
  embedDocument c h doc = (h', Ok tt) ->
  documents_at h !! doc = Some d ->
  exists segments new,
    splitText c (Content d) = Ok segments /\
    length new = length segments /\
    Segments <$> (documents_at h' !! doc) = Some (Segments d ++ new).
Proof.
  unfold embedDocument. intros Hembed Hd. rewrite Hd in Hembed.
  case_decide; [done|].
  destruct (splitText c (Content d)) as [segments| | |]; try done.
  destruct (embeddingFunc c segments (embeddingDocumentType c)) as [embeddings| | |];
    try done.
  destruct (normalizeAll embeddings) as [normalized| | |]; try done.
  destruct (embedSegments_appends _ _ _ _ _ _ _ Hembed Hd) as (new & Hlen & Hsegs).
  eauto.
Qed.

(** C1: the specification has [EmbedDocuments] overwrite the segments of
    a document. On the scenario of the repository's own test (add the
    test document, then call [EmbedDocuments]) both calls succeed, the
    content splits into one segment, and the document ends with two
    segments: the one [AddDocument] made and, after it, the one
    [EmbedDocuments] made, with the same text. *)
Lemma EmbedDocuments_keeps_old_segments :
  let added := @AddDocument ascii_runtime testCollection testHeap 1%positive in
  let embedded := @EmbedDocuments ascii_runtime added.1.1 added.1.2 in
  added.2 = Ok tt /\ embedded.2 = Ok tt /\
  @splitText ascii_runtime added.1.1 (Content testDocument)
  = Ok ["This is a test document."%string] /\
  Segments <$> (documents_at added.1.2 !! 1%positive) = Some [1%positive] /\
  Segments <$> (documents_at embedded.1 !! 1%positive) = Some [1%positive; 2%positive] /\
  Text <$> (segments_at embedded.1 !! 1%positive) = Some "This is a test document."%string /\
  Text <$> (segments_at embedded.1 !! 2%positive) = Some "This is a test document."%string.
Proof. vm_compute. repeat split. Qed.

(** ** The query engine *)

Lemma bind_Ok_inv {A B} (m : outcome A) (f : A -> outcome B) b :
  m ≫= f = Ok b -> exists a, m = Ok a /\ f a = Ok b.
Proof. destruct m; try done. eauto. Qed.

Lemma resolveSimilarity_allocated c h sim res :
  resolveSimilarity c h sim = Ok (Some res) ->
  is_Some (documents_at h !! Result_Document res).
Proof.
  unfold resolveSimilarity.
  destruct (parseIDAndSegmentIndex (Similarity_ID sim)) as [[docID segmentIndex]| | |]; try done.
  destruct (documents c !! docID) as [doc|]; [|done].
  destruct (documents_at h !! doc) as [d|] eqn:Hd; [|done].
  destruct ((segmentIndex <? 0) || (len (Segments d) <=? segmentIndex)); [done|].
  destruct (Segments d !! Z.to_nat segmentIndex); [|done].
  intros [= <-]. simpl. by rewrite Hd.
Qed.

Lemma resolveSimilarities_allocated c h sims : forall results,
  resolveSimilarities c h sims = Ok results -> allocated h results.
Proof.
  induction sims as [|sim rest IH]; intros results; simpl.
  - intros [= <-]. constructor.
  - intros Hres.
    apply bind_Ok_inv in Hres as (r & Hr & Hres).
    apply bind_Ok_inv in Hres as (results' & Hrest & Hres).
    injection Hres as <-. specialize (IH _ Hrest).
    destruct r as [res|]; [|done].
    constructor; [by eapply resolveSimilarity_allocated | done].
Qed.

Lemma allocated_perm h l l' : l ≡ₚ l' -> allocated h l -> allocated h l'.
Proof. intros Hp. unfold allocated. by rewrite Hp. Qed.

Lemma getTopNSimilarEmbeddings_topN `{GoRuntime} q embeddings ids topN sims :
  getTopNSimilarEmbeddings q embeddings ids topN = Ok sims -> 0 <= topN.
Proof.
  unfold getTopNSimilarEmbeddings.
  destruct embeddings as [|first rest]; [done|].
  destruct (negb _); [done|].
  intros Hres.
  apply bind_Ok_inv in Hres as (nq & _ & Hres).
  apply bind_Ok_inv in Hres as (sims0 & _ & Hres).
  apply slicePrefix_inv in Hres as [Hn _].
  destruct (Z.ltb_spec (len (sortSlice similarityLess sims0)) topN); unfold len in *; lia.
Qed.

Lemma GetTopNSimilarDocuments_Ok `{GoRuntime} c h query topN results :
  GetTopNSimilarDocuments c h query topN = Ok results ->
  0 <= topN /\ allocated h results.
Proof.
  unfold GetTopNSimilarDocuments. intros Hres.
  apply bind_Ok_inv in Hres as (queryEmbedding & _ & Hres).
  destruct queryEmbedding as [|q0 ?]; [done|].
  apply bind_Ok_inv in Hres as (candidates & _ & Hres).
  apply bind_Ok_inv in Hres as (sims & Hsims & Hres).
  apply bind_Ok_inv in Hres as (rs & Hrs & Hres).
  injection Hres as <-.
  split; [by eapply getTopNSimilarEmbeddings_topN|].
  eapply allocated_perm; [symmetry; apply sortSlice_perm|].
  by eapply resolveSimilarities_allocated.
Qed.

Lemma mergeResult_merged h seen m res :
  merged h seen m ->
  is_Some (documents_at h !! Result_Document res) ->
  exists m', mergeResult h m res = Ok m' /\ merged h (seen ++ [res]) m'.
Proof.
  intros [Hbest Hkeys] [d Hd]. unfold mergeResult. rewrite Hd.
  assert (Hres : resultDocID h res = Some (ID d)) by (unfold resultDocID; by rewrite Hd).
  assert (Hins :
            (forall r', r' ∈ seen -> resultDocID h r' = Some (ID d) ->
               fgt (Result_Similarity r') (Result_Similarity res) = false) ->
            merged h (seen ++ [res]) (<[ID d := res]> m)).
  { intros Hmax. split.
    - intros k r. rewrite lookup_insert. case_decide as Hk.
      + intros [= <-]. subst k.
        split; [apply elem_of_app; right; by apply list_elem_of_singleton|]. split; [done|].
        intros r' Hr' Hid. apply elem_of_app in Hr' as [Hr'|Hr'].
        * by apply Hmax.
        * apply list_elem_of_singleton in Hr' as ->. apply fgt_irrefl.
      + intros Hr. destruct (Hbest k r Hr) as (Hin & Hid & Hmax').
        split; [apply elem_of_app; by left|]. split; [done|].
        intros r' Hr' Hid'. apply elem_of_app in Hr' as [Hr'|Hr'].
        * by apply Hmax'.
        * apply list_elem_of_singleton in Hr' as ->. congruence.
    - intros r' k Hr' Hid. rewrite lookup_insert. case_decide; [done|].
      apply elem_of_app in Hr' as [Hr'|Hr'].
      + by eapply Hkeys.
      + apply list_elem_of_singleton in Hr' as ->. congruence. }
  destruct (m !! ID d) as [existingRes|] eqn:Hex.
  - destruct (Hbest _ _ Hex) as (Hin & Hid & Hmax).
    destruct (fgt (Result_Similarity res) (Result_Similarity existingRes)) eqn:Hgt.
    + eexists; split; [done|]. apply Hins.
      intros r' Hr' Hid'. specialize (Hmax r' Hr' Hid').
      destruct (fgt (Result_Similarity r') (Result_Similarity res)) eqn:Hgt'; [|done].
      rewrite (fgt_trans _ _ _ Hgt' Hgt) in Hmax. done.
    + eexists; split; [done|]. split.
      * intros k r Hr. destruct (Hbest k r Hr) as (Hin' & Hid' & Hmax').
        split; [apply elem_of_app; by left|]. split; [done|].
        intros r' Hr' Hidr'. apply elem_of_app in Hr' as [Hr'|Hr'].
        -- by apply Hmax'.
        -- apply list_elem_of_singleton in Hr' as ->.
           assert (k = ID d) as -> by congruence.
           assert (r = existingRes) as -> by congruence. done.
      * intros r' k Hr' Hidr'. apply elem_of_app in Hr' as [Hr'|Hr'].
        -- by eapply Hkeys.
        -- apply list_elem_of_singleton in Hr' as ->.
           assert (k = ID d) as -> by congruence. by rewrite Hex.
  - eexists; split; [done|]. apply Hins.
    intros r' Hr' Hid'. destruct (Hkeys r' (ID d) Hr' Hid') as [? ?]. congruence.
Qed.

Lemma mergeResults_merged h results : forall seen m,
  merged h seen m ->
  allocated h results ->
  exists m', mergeResults h m results = Ok m' /\ merged h (seen ++ results) m'.
Proof.
  induction results as [|res rest IH]; intros seen m Hm Halloc; simpl.
  - exists m. by rewrite app_nil_r.
  - apply Forall_cons in Halloc as [Hres Hrest].
    destruct (mergeResult_merged h seen m res Hm Hres) as (m1 & -> & Hm1).
    destruct (IH _ _ Hm1 Hrest) as (m2 & Hm2 & Hmerged).
    exists m2. split; [done|]. by rewrite <- app_assoc in Hmerged.
Qed.

Lemma merged_empty h : merged h [] ∅.
Proof.
  split.
  - intros k r. by rewrite lookup_empty.
  - intros r' k Hr'. by apply elem_of_nil in Hr'.
Qed.

Lemma map_fmap {A B} (f : A -> B) (l : list A) : map f l = f <$> l.
Proof. induction l as [|a l IH]; simpl; [done | by rewrite IH]. Qed.

Lemma firstCrash_None queryResults :
  Forall (fun r => is_Ok r || is_Err r = true) queryResults ->
  firstCrash queryResults = None.
Proof.
  induction 1 as [|r rest Hr _ IH]; simpl; [done|].
  by destruct r.
Qed.


Lemma survivingResults_allocated `{GoRuntime} c h topN queries :
  allocated h (survivingResults (map (fun query => GetTopNSimilarDocuments c h query topN) queries)).
Proof.
  induction queries as [|query rest IH]; simpl; [constructor|].
  destruct (GetTopNSimilarDocuments c h query topN) as [results| | |] eqn:Hq; try done.
  apply Forall_app. split; [|done].
  by apply GetTopNSimilarDocuments_Ok in Hq as [_ ?].
Qed.

Lemma merged_NoDup h seen m :
  merged h seen m -> NoDup (map (resultDocID h) (map snd (map_to_list m))).
Proof.
  intros [Hbest _].
  rewrite map_map.
  rewrite (map_ext_in _ (fun kr => Some (fst kr))).
  - rewrite <- map_map, !map_fmap. apply NoDup_fmap_2; [apply _|].
    apply NoDup_fst_map_to_list.
  - intros [k r] Hin. simpl.
    apply list_elem_of_In, elem_of_map_to_list in Hin.
    by destruct (Hbest k r Hin) as (_ & ? & _).
Qed.




(** ** AggregateResults *)

Lemma string_app_assoc (s1 s2 s3 : string) : (s1 +:+ s2) +:+ s3 = s1 +:+ s2 +:+ s3.
Proof.
  induction s1 as [|a s1 IH]; [done|].
  change (String a ((s1 +:+ s2) +:+ s3) = String a (s1 +:+ s2 +:+ s3)). by f_equal.
Qed.

Lemma string_app_nil_r (s : string) : s +:+ EmptyString = s.
Proof.
  induction s as [|a s IH]; [done|].
  change (String a (s +:+ EmptyString) = String a s). by f_equal.
Qed.

Lemma firstDocument_snoc h seen r d docID :
  documents_at h !! Result_Document r = Some d ->
  firstDocument h (seen ++ [r]) docID
  = match firstDocument h seen docID with
    | Some y => Some y
    | None => if bool_decide (ID d = docID) then Some d else None
    end.
Proof.
  intros Hd. unfold firstDocument. rewrite omap_app, head_app. simpl. rewrite Hd. simpl.
  destruct (head _); [done|]. by case_bool_decide.
Qed.

Lemma accumulate_firstSeen h seen acc result :
  firstSeen h seen acc ->
  is_Some (documents_at h !! Result_Document result) ->
  exists acc', accumulate h acc result = Ok acc' /\ firstSeen h (seen ++ [result]) acc'.
Proof.
  intros Hacc [d Hd]. unfold accumulate. rewrite Hd.
  destruct (Hacc (ID d)) as [Hsegs Hmeta].
  destruct (docSegmentsMap acc !! ID d) as [segs|] eqn:Hlook.
  - assert (Hkeep : firstSeen h (seen ++ [result]) acc).
    { intros k. rewrite (firstDocument_snoc _ _ _ d) by done.
      destruct (Hacc k) as [Hs Hm].
      destruct (firstDocument h seen k) as [y|] eqn:Hfirst; [done|].
      case_bool_decide as Hk; [|done]. subst k. rewrite Hfirst in Hsegs. done. }
    destruct (fgt _ _); eexists; (split; [done|]); [|done].
    intros k. apply Hkeep.
  - eexists; split; [done|]. intros k. simpl.
    rewrite (firstDocument_snoc _ _ _ d) by done.
    destruct (Hacc k) as [Hs Hm].
    rewrite !lookup_insert. case_decide as Hk.
    + subst k. destruct (firstDocument h seen (ID d)); [done|].
      by rewrite bool_decide_eq_true_2.
    + destruct (firstDocument h seen k); [done|].
      by rewrite bool_decide_eq_false_2.
Qed.

Lemma accumulateAll_firstSeen h results : forall seen acc,
  firstSeen h seen acc ->
  allocated h results ->
  exists acc', accumulateAll h acc results = Ok acc' /\ firstSeen h (seen ++ results) acc'.
Proof.
  induction results as [|result rest IH]; intros seen acc Hacc Halloc; simpl.
  - exists acc. by rewrite app_nil_r.
  - apply Forall_cons in Halloc as [Hres Hrest].
    destruct (accumulate_firstSeen h seen acc result Hacc Hres) as (acc1 & -> & Hacc1).
    destruct (IH _ _ Hacc1 Hrest) as (acc2 & Hacc2 & Hseen).
    exists acc2. split; [done|]. by rewrite <- app_assoc in Hseen.
Qed.

Lemma firstSeen_empty h : firstSeen h [] emptyAggregation.
Proof. intros k. simpl. by rewrite !lookup_empty. Qed.

Lemma segmentMatched_isMatched h docID segment results :
  allocated h results ->
  segmentMatched h docID segment results = Ok (isMatched h results docID segment).
Proof.
  induction 1 as [|result rest [d Hd] _ IH]; simpl; [done|].
  rewrite Hd. unfold resultDocID. rewrite Hd. simpl.
  rewrite IH.
  rewrite (bool_decide_ext (Some (ID d) = Some docID) (ID d = docID)) by (split; congruence).
  by destruct (bool_decide (ID d = docID)), (bool_decide (Result_Segment result = segment)).
Qed.

Lemma isMatched_allocated h results docID segment :
  Forall (fun r => is_Some (segments_at h !! Result_Segment r)) results ->
  isMatched h results docID segment = true ->
  is_Some (segments_at h !! segment).
Proof.
  intros Hsegs Hm. apply existsb_exists in Hm as (r & Hin & Hr).
  apply andb_prop in Hr as [_ Hseg]. apply bool_decide_eq_true in Hseg as <-.
  rewrite Forall_forall in Hsegs. by apply Hsegs, list_elem_of_In.
Qed.

Lemma writeSegments_joinTexts h docID results segments : forall i contentBuilder,
  allocated h results ->
  Forall (fun r => is_Some (segments_at h !! Result_Segment r)) results ->
  writeSegments h docID results i segments contentBuilder
  = Ok (contentBuilder +:+
        joinTexts h (matchedFrom h results docID (imap (fun j s => ((i + j)%nat, s)) segments))).
Proof.
  induction segments as [|segment rest IH]; intros i contentBuilder Halloc Hsegs.
  - simpl. by rewrite string_app_nil_r.
  - cbn [writeSegments]. rewrite segmentMatched_isMatched by done. obind.
    rewrite imap_cons. unfold matchedFrom. rewrite filter_cons. cbn [snd].
    rewrite (imap_ext _ (fun j s => ((S i + j)%nat, s)))
      by (intros j s _; simpl; f_equal; lia).
    destruct (isMatched h results docID segment) eqn:Hm.
    + rewrite decide_True by done.
      destruct (isMatched_allocated _ _ _ _ Hsegs Hm) as [s Hs]. rewrite Hs.
      rewrite IH by done. unfold matchedFrom. f_equal.
      cbn [joinTexts foldr fst snd]. unfold segmentText. rewrite Hs. cbn [fmap option_fmap option_map default].
      rewrite Nat.add_0_r.
      destruct (0 <? i)%nat; by rewrite !string_app_assoc.
    + rewrite decide_False by done. by rewrite IH.
Qed.

Lemma documentContent_storedOrder h acc results docID :
  allocated h results ->
  Forall (fun r => is_Some (segments_at h !! Result_Segment r)) results ->
  documentContent h acc results docID
  = Ok (storedOrderContent h results docID (default [] (docSegmentsMap acc !! docID))).
Proof.
  intros Halloc Hsegs. unfold documentContent.
  rewrite writeSegments_joinTexts by done. done.
Qed.

Lemma formatDocuments_foldl h acc results formatter docIDs : forall resultBuilder,
  allocated h results ->
  Forall (fun r => is_Some (segments_at h !! Result_Segment r)) results ->
  formatDocuments h acc results formatter docIDs resultBuilder
  = Ok (foldl (fun resultBuilder docID =>
                 resultBuilder +:+
                 formatter docID (default ∅ (docMetadataMap acc !! docID))
                   (storedOrderContent h results docID
                      (default [] (docSegmentsMap acc !! docID))))
              resultBuilder docIDs).
Proof.
  induction docIDs as [|docID rest IH]; intros resultBuilder Halloc Hsegs; simpl; [done|].
  rewrite documentContent_storedOrder by done. obind. by rewrite IH.
Qed.

Lemma isMatched_spec h results docID segment :
  isMatched h results docID segment = true <->
  exists r, r ∈ results /\ resultDocID h r = Some docID /\ Result_Segment r = segment.
Proof.
  unfold isMatched. rewrite existsb_exists. split.
  - intros (r & Hin & Hr). apply andb_prop in Hr as [Hid Hseg].
    apply bool_decide_eq_true in Hid. apply bool_decide_eq_true in Hseg.
    exists r. by rewrite list_elem_of_In.
  - intros (r & Hin & Hid & Hseg). exists r. rewrite <- list_elem_of_In. split; [done|].
    by rewrite !bool_decide_eq_true_2.
Qed.

Lemma isMatched_perm h results results' docID segment :
  results ≡ₚ results' ->
  isMatched h results' docID segment = isMatched h results docID segment.
Proof.
  intros Hperm.
  destruct (isMatched h results docID segment) eqn:Hm.
  - apply isMatched_spec in Hm as (r & Hin & Hr). apply isMatched_spec.
    exists r. by rewrite <- Hperm.
  - destruct (isMatched h results' docID segment) eqn:Hm'; [|done].
    apply isMatched_spec in Hm' as (r & Hin & Hr).
    rewrite <- Hm. symmetry. apply isMatched_spec. exists r. by rewrite Hperm.
Qed.

(** C3: [AggregateResults] hands the formatter, for each document, the
    texts of the matched segments of the document in the order of the
    document's [Segments] sequence: the matched segments are a
    subsequence of [Segments] (with their indices), holding exactly the
    segments some result of the document refers to, and the content is
    the same for every reordering of the results (the order they arrive
    in or their order by similarity). *)
Theorem AggregateResults_stored_order `{GoRuntime} h results formatter :
  allocated h results ->
  Forall (fun r => is_Some (segments_at h !! Result_Segment r)) results ->
  exists acc,
    accumulateAll h emptyAggregation results = Ok acc /\
    firstSeen h results acc /\
    AggregateResults h results formatter
    = Ok (foldl (fun resultBuilder docID =>
                   resultBuilder +:+
                   formatter docID (default ∅ (docMetadataMap acc !! docID))
                     (storedOrderContent h results docID
                        (default [] (docSegmentsMap acc !! docID))))
                EmptyString (sortedDocIDs (docSimilarityMap acc))) /\
    (forall docID segments,
       matchedSegments h results docID segments `sublist_of` imap pair segments /\
       forall i segment,
         (i, segment) ∈ matchedSegments h results docID segments <->
         segments !! i = Some segment /\
         exists r, r ∈ results /\ resultDocID h r = Some docID /\ Result_Segment r = segment) /\
    (forall results' docID segments, results ≡ₚ results' ->
       storedOrderContent h results' docID segments
       = storedOrderContent h results docID segments).
Proof.
  intros Halloc Hsegs.
  destruct (accumulateAll_firstSeen h results [] emptyAggregation (firstSeen_empty h) Halloc)
    as (acc & Hacc & Hseen).
  exists acc. split; [done|]. split; [done|]. split; [|split].
  - unfold AggregateResults. rewrite Hacc. obind. by apply formatDocuments_foldl.
  - intros docID segments. split; [apply sublist_filter|].
    intros i segment. unfold matchedSegments, matchedFrom.
    rewrite list_elem_of_filter, elem_of_lookup_imap. cbn [snd].
    rewrite isMatched_spec. split.
    + intros [Hm (j & y & [= -> ->] & Hlook)]. done.
    + intros [Hlook Hm]. split; [done|]. eauto.
  - intros results' docID segments Hperm.
    unfold storedOrderContent, matchedSegments, matchedFrom. f_equal.
    apply list_filter_iff. intros [i segment]. cbn [snd].
    by rewrite (isMatched_perm h results results').
Qed.

(** C3 on the data of the repository's test: the results arrive by
    descending similarity, the contents follow the segments of each
    document. *)
Lemma AggregateResults_stored_order_witness :
  allocated aggregateHeap aggregateTestData /\
  Forall (fun r => is_Some (segments_at aggregateHeap !! Result_Segment r)) aggregateTestData /\
  @AggregateResults ascii_runtime aggregateHeap aggregateTestData plainFormatter
  = Ok ("doc2|Foo1" +:+ newline +:+ "Bar2" +:+ newline +:+ "Baz3;doc1|Hello1" +:+ newline
        +:+ "World2;doc3|doc3 segment;") /\
  exists acc,
    accumulateAll aggregateHeap emptyAggregation aggregateTestData = Ok acc /\
    firstSeen aggregateHeap aggregateTestData acc /\
    @AggregateResults ascii_runtime aggregateHeap aggregateTestData plainFormatter
    = Ok (foldl (fun resultBuilder docID =>
                   resultBuilder +:+
                   plainFormatter docID (default ∅ (docMetadataMap acc !! docID))
                     (storedOrderContent aggregateHeap aggregateTestData docID
                        (default [] (docSegmentsMap acc !! docID))))
                EmptyString (@sortedDocIDs ascii_runtime (docSimilarityMap acc))) /\
    (forall docID segments,
       matchedSegments aggregateHeap aggregateTestData docID segments
         `sublist_of` imap pair segments /\
       forall i segment,
         (i, segment) ∈ matchedSegments aggregateHeap aggregateTestData docID segments <->
         segments !! i = Some segment /\
         exists r, r ∈ aggregateTestData /\ resultDocID aggregateHeap r = Some docID /\
                   Result_Segment r = segment) /\
    (forall results' docID segments, aggregateTestData ≡ₚ results' ->
       storedOrderContent aggregateHeap results' docID segments
       = storedOrderContent aggregateHeap aggregateTestData docID segments).
Proof.
  assert (Halloc : allocated aggregateHeap aggregateTestData).
  { repeat (constructor; [eexists; vm_compute; reflexivity|]). constructor. }
  assert (Hsegs : Forall (fun r => is_Some (segments_at aggregateHeap !! Result_Segment r))
                         aggregateTestData).
  { repeat (constructor; [eexists; vm_compute; reflexivity|]). constructor. }
  split; [exact Halloc|]. split; [exact Hsegs|].
  split; [vm_compute; reflexivity|].
  exact (@AggregateResults_stored_order ascii_runtime aggregateHeap aggregateTestData
           plainFormatter Halloc Hsegs).
Defined.

(** The version of [AggregateResults] that came before, on the same
    data: the contents follow the similarities ("Baz3" first, "World2"
    before "Hello1"), as the test that came with it expects. *)
Lemma Earlier_AggregateResults_by_similarity :
  @Earlier.AggregateResults ascii_runtime aggregateHeap aggregateTestData plainFormatter
  = Ok ("doc2|Baz3" +:+ newline +:+ "Foo1" +:+ newline +:+ "Bar2;doc1|World2" +:+ newline
        +:+ "Hello1;doc3|doc3 segment;").
Proof. vm_compute. reflexivity. Qed.


(** * Further properties of the code *)

(** ** vector.go *)

Lemma dotLoop_self dotP v :
  dotLoop dotP v v = foldl (fun sum x => PrimFloat.add sum (PrimFloat.mul x x)) dotP v.
Proof. revert dotP. induction v as [|x v IH]; intros dotP; simpl; [done | apply IH]. Qed.

(** X1: the dot product of a vector with itself is the sum of squares
    that [normalizeVector] tests and takes the root of. *)
Theorem dotProduct_self v : dotProduct v v = Ok (sumSquares v).
Proof.
  unfold dotProduct, sumSquares. rewrite Nat.eqb_refl. simpl. by rewrite dotLoop_self.
Qed.

(** A float that equals zero is one of the two zeros. *)
Lemma float_eqb_zero x : PrimFloat.eqb x 0 = true -> x = 0%float \/ x = (-0)%float.
Proof.
  rewrite FloatAxioms.eqb_spec. intros Hx.
  rewrite <- (SF2Prim_Prim2SF x).
  destruct (Prim2SF x) as [s|s| |s m e]; try destruct s; try discriminate Hx;
    [right | left]; reflexivity.
Qed.

Lemma sumSquares_zeros v :
  Forall (fun x => PrimFloat.eqb x 0 = true) v -> sumSquares v = 0%float.
Proof.
  unfold sumSquares. induction 1 as [|x v Hx _ IH]; simpl; [done|].
  destruct (float_eqb_zero x Hx) as [-> | ->]; exact IH.
Qed.

(** X2: [normalizeVector] rejects every vector whose components are all
    zero (of either sign), the empty vector among them; when it returns
    a vector, that has the length of the input, whose squares do not
    sum to zero. *)
Theorem normalizeVector_zero_and_length :
  (forall v, Forall (fun x => PrimFloat.eqb x 0 = true) v ->
     normalizeVector v = Err "cannot normalize a zero vector") /\
  (forall v normalized, normalizeVector v = Ok normalized ->
     length normalized = length v /\ PrimFloat.eqb (sumSquares v) 0 = false).
Proof.
  split.
  - intros v Hv. unfold normalizeVector. by rewrite (sumSquares_zeros v Hv).
  - intros v normalized. unfold normalizeVector.
    destruct (PrimFloat.eqb (sumSquares v) 0); [done|].
    intros [= <-]. by rewrite length_map.
Qed.

Lemma normalizeVector_zero_and_length_witness :
  Forall (fun x => PrimFloat.eqb x 0 = true) [0; -0; 0]%float /\
  normalizeVector [0; -0; 0]%float = Err "cannot normalize a zero vector" /\
  normalizeVector [3; 4]%float = Ok [3 / 5; 4 / 5]%float /\
  length [3 / 5; 4 / 5]%float = length [3; 4]%float /\
  PrimFloat.eqb (sumSquares [3; 4]%float) 0 = false.
Proof.
  assert (Hz : Forall (fun x => PrimFloat.eqb x 0 = true) [0; -0; 0]%float)
    by (repeat constructor).
  assert (Hn : normalizeVector [3; 4]%float = Ok [3 / 5; 4 / 5]%float)
    by (vm_compute; reflexivity).
  split; [exact Hz|].
  split; [exact (proj1 normalizeVector_zero_and_length _ Hz)|].
  split; [exact Hn|].
  exact (proj2 normalizeVector_zero_and_length _ _ Hn).
Defined.

Lemma cosineLoop_split vec1 : forall vec2 dotP normA normB,
  length vec1 = length vec2 ->
  cosineLoop dotP normA normB vec1 vec2
  = (dotLoop dotP vec1 vec2,
     foldl (fun sum x => PrimFloat.add sum (PrimFloat.mul x x)) normA vec1,
     foldl (fun sum x => PrimFloat.add sum (PrimFloat.mul x x)) normB vec2).
Proof.
  induction vec1 as [|a vec1 IH]; intros [|b vec2] dotP normA normB Hlen;
    simpl in *; try done.
  apply IH. lia.
Qed.

(** X3: [cosineSimilarity] fails for vectors of different lengths, as
    [dotProduct] does, and for a vector [normalizeVector] rejects;
    otherwise it is the dot product of the two vectors divided by the
    product of the roots of their sums of squares. *)
Theorem cosineSimilarity_dotProduct vec1 vec2 :
  (length vec1 <> length vec2 ->
   cosineSimilarity vec1 vec2 = Err "vectors must have the same length" /\
   dotProduct vec1 vec2 = Err "vectors must have the same length") /\
  (length vec1 = length vec2 ->
   PrimFloat.eqb (sumSquares vec1) 0 || PrimFloat.eqb (sumSquares vec2) 0 = true ->
   cosineSimilarity vec1 vec2 = Err "cannot calculate cosine similarity with zero vectors") /\
  (length vec1 = length vec2 ->
   PrimFloat.eqb (sumSquares vec1) 0 || PrimFloat.eqb (sumSquares vec2) 0 = false ->
   exists dotP,
     dotProduct vec1 vec2 = Ok dotP /\
     cosineSimilarity vec1 vec2
     = Ok (PrimFloat.div dotP (PrimFloat.mul (PrimFloat.sqrt (sumSquares vec1))
                                             (PrimFloat.sqrt (sumSquares vec2))))).
Proof.
  unfold cosineSimilarity, dotProduct. split; [|split].
  - intros Hne. apply Nat.eqb_neq in Hne. by rewrite Hne.
  - intros Heq Hz. rewrite cosineLoop_split by done.
    rewrite Heq, Nat.eqb_refl. simpl negb. cbv iota. fold (sumSquares vec1) (sumSquares vec2).
    by rewrite Hz.
  - intros Heq Hz. rewrite cosineLoop_split by done.
    rewrite Heq, Nat.eqb_refl. simpl negb. cbv iota. fold (sumSquares vec1) (sumSquares vec2).
    rewrite Hz. eauto.
Qed.

Lemma cosineSimilarity_dotProduct_witness :
  length [3; 4]%float = length [4; 3]%float /\
  PrimFloat.eqb (sumSquares [3; 4]%float) 0 || PrimFloat.eqb (sumSquares [4; 3]%float) 0 = false /\
  cosineSimilarity [3; 4]%float [4; 3]%float = Ok (24 / 25)%float /\
  exists dotP,
    dotProduct [3; 4]%float [4; 3]%float = Ok dotP /\
    cosineSimilarity [3; 4]%float [4; 3]%float
    = Ok (PrimFloat.div dotP (PrimFloat.mul (PrimFloat.sqrt (sumSquares [3; 4]%float))
                                            (PrimFloat.sqrt (sumSquares [4; 3]%float)))).
Proof.
  split; [reflexivity|]. split; [reflexivity|]. split; [vm_compute; reflexivity|].
  apply (proj2 (proj2 (cosineSimilarity_dotProduct [3; 4]%float [4; 3]%float))); reflexivity.
Defined.

Lemma addInto_length avgVec vec : length (addInto avgVec vec) = length avgVec.
Proof.
  revert vec. induction avgVec as [|a avgVec IH]; intros [|v vec]; simpl; try done.
  by rewrite IH.
Qed.

Lemma sumVectors_same_length vecLen vectors : forall avgVec,
  length avgVec = vecLen ->
  Forall (fun vec => length vec = vecLen) vectors ->
  exists sums, sumVectors vecLen avgVec vectors = Ok sums /\ length sums = vecLen.
Proof.
  induction vectors as [|vec rest IH]; intros avgVec Hlen Hall; simpl; [eauto|].
  apply Forall_cons in Hall as [Hvec Hrest].
  rewrite Hvec, Nat.eqb_refl. simpl. apply IH; [|done]. by rewrite addInto_length.
Qed.

Lemma sumVectors_other_length vecLen vectors : forall avgVec,
  Exists (fun vec => length vec <> vecLen) vectors ->
  sumVectors vecLen avgVec vectors = Err "all vectors must have the same length".
Proof.
  induction vectors as [|vec rest IH]; intros avgVec Hex; simpl.
  - by apply Exists_nil in Hex.
  - destruct (Nat.eqb_spec (length vec) vecLen) as [Heq|Hne]; simpl; [|done].
    apply IH. apply Exists_cons in Hex as [Hvec|Hrest]; [done|done].
Qed.

(** X4: [averageVectors] fails on no vectors and when some vector has
    not the length of the first; for vectors of one length it returns a
    vector of that length. *)
Theorem averageVectors_lengths :
  averageVectors [] = Err "no vectors to average" /\
  (forall first rest,
     Exists (fun vec => length vec <> length first) rest ->
     averageVectors (first :: rest) = Err "all vectors must have the same length") /\
  (forall first rest,
     Forall (fun vec => length vec = length first) rest ->
     exists avgVec, averageVectors (first :: rest) = Ok avgVec /\
                    length avgVec = length first).
Proof.
  split; [done|]. split.
  - intros first rest Hex. unfold averageVectors.
    rewrite sumVectors_other_length; [done|]. by apply Exists_cons_tl.
  - intros first rest Hall. unfold averageVectors.
    destruct (sumVectors_same_length (length first) (first :: rest)
                (replicate (length first) 0%float)) as (sums & -> & Hlen).
    { by rewrite length_replicate. }
    { by constructor. }
    obind. eexists. split; [done|]. by rewrite length_map.
Qed.

(** X4 on the first two cases of the repository's test of
    [averageVectors]. *)
Lemma averageVectors_lengths_witness :
  Forall (fun vec => length vec = length [1; 2]%float) [[3; 4]%float] /\
  averageVectors [[1; 2]; [3; 4]]%float = Ok [2; 3]%float /\
  Exists (fun vec => length vec <> length [1; 2]%float) [[3; 4; 5]%float] /\
  averageVectors [[1; 2]; [3; 4; 5]]%float = Err "all vectors must have the same length" /\
  exists avgVec, averageVectors [[1; 2]; [3; 4]]%float = Ok avgVec /\
                 length avgVec = length [1; 2]%float.
Proof.
  assert (Hall : Forall (fun vec => length vec = length [1; 2]%float) [[3; 4]%float])
    by (repeat constructor).
  assert (Hex : Exists (fun vec => length vec <> length [1; 2]%float) [[3; 4; 5]%float])
    by (constructor; simpl; lia).
  split; [exact Hall|]. split; [vm_compute; reflexivity|]. split; [exact Hex|].
  split; [exact (proj1 (proj2 averageVectors_lengths) _ _ Hex)|].
  exact (proj2 (proj2 averageVectors_lengths) _ _ Hall).
Defined.

(** X5: a vector that passes [isNormalized] is not empty and is not
    rejected by [normalizeVector]. *)
Theorem isNormalized_normalizeVector v :
  isNormalized v = true ->
  v <> [] /\ exists normalized, normalizeVector v = Ok normalized.
Proof.
  intros Hn. destruct v as [|x v]; [done|]. split; [done|].
  apply normalizeVector_nonzero.
  destruct (PrimFloat.eqb (sumSquares (x :: v)) 0) eqn:Hz; [|done].
  unfold isNormalized in Hn. cbv beta iota zeta in Hn.
  destruct (float_eqb_zero _ Hz) as [Hs|Hs]; rewrite Hs in Hn; vm_compute in Hn; done.
Qed.

Lemma isNormalized_normalizeVector_witness :
  isNormalized [3 / 5; 4 / 5]%float = true /\
  [3 / 5; 4 / 5]%float <> [] /\
  exists normalized, normalizeVector [3 / 5; 4 / 5]%float = Ok normalized.
Proof.
  split; [vm_compute; reflexivity|].
  apply (isNormalized_normalizeVector [3 / 5; 4 / 5]%float). vm_compute. reflexivity.
Defined.

(** ** The ranker, further *)

Lemma normalizeVector_length v normalized :
  normalizeVector v = Ok normalized -> length normalized = length v.
Proof.
  unfold normalizeVector. destruct (PrimFloat.eqb (sumSquares v) 0); [done|].
  intros [= <-]. by rewrite length_map.
Qed.

Lemma scoreEmbeddings_entries q ids embeddings : forall i sims,
  scoreEmbeddings q embeddings ids i = Ok sims ->
  forall j s, sims !! j = Some s ->
    exists e, embeddings !! j = Some e /\
      ((exists score, dotProduct q e = Ok score /\
                      ids !! (i + j)%nat = Some (Similarity_ID s) /\
                      Similarity_Score s = score) \/
       (length e <> length q /\ s = zeroSimilarity)).
Proof.
  induction embeddings as [|e rest IH]; intros i sims Hs j s Hj; simpl in Hs.
  - injection Hs as <-. done.
  - assert (Hrest : exists s0 sims', scoreEmbeddings q rest ids (S i) = Ok sims' /\
                      sims = s0 :: sims' /\
                      ((exists score, dotProduct q e = Ok score /\
                          ids !! i = Some (Similarity_ID s0) /\ Similarity_Score s0 = score) \/
                       (length e <> length q /\ s0 = zeroSimilarity))).
    { unfold dotProduct in *.
      destruct (Nat.eqb_spec (length q) (length e)) as [Heq|Hne]; simpl in Hs.
      - destruct (ids !! i) as [id|] eqn:Hid; [|done].
        destruct (scoreEmbeddings q rest ids (S i)) as [sims'| | |]; try done.
        injection Hs as <-. eexists _, _. split; [done|]. split; [done|].
        left. eexists. repeat split; done.
      - destruct (scoreEmbeddings q rest ids (S i)) as [sims'| | |]; try done.
        injection Hs as <-. eexists _, _. split; [done|]. split; [done|].
        right. split; [congruence | done]. }
    destruct Hrest as (s0 & sims' & Hsims' & -> & Hs0).
    destruct j as [|j]; simpl in Hj.
    + injection Hj as <-. exists e. split; [done|]. by rewrite Nat.add_0_r.
    + destruct (IH _ _ Hsims' j s Hj) as (e' & He' & Hcase).
      exists e'. split; [done|]. by rewrite <- Nat.add_succ_comm.
Qed.

Lemma scoreEmbeddings_length q ids embeddings : forall i sims,
  scoreEmbeddings q embeddings ids i = Ok sims -> length sims = length embeddings.
Proof.
  induction embeddings as [|e rest IH]; intros i sims; simpl.
  - by intros [= <-].
  - destruct (dotProduct q e); [destruct (ids !! i); [|done]|..];
      destruct (scoreEmbeddings q rest ids (S i)) as [sims'| | |] eqn:Hrest; try done;
      intros [= <-]; simpl; f_equal; by eapply IH.
Qed.

Lemma getTopNSimilarEmbeddings_inv `{GoRuntime} q embeddings ids topN sims :
  getTopNSimilarEmbeddings q embeddings ids topN = Ok sims ->
  exists normalized scored,
    normalizeVector q = Ok normalized /\
    scoreEmbeddings normalized embeddings ids 0 = Ok scored /\
    0 <= topN /\
    sims = take (Z.to_nat (Z.min topN (len embeddings))) (sortSlice similarityLess scored).
Proof.
  intros Hres. pose proof (getTopNSimilarEmbeddings_topN _ _ _ _ _ Hres) as HtopN.
  unfold getTopNSimilarEmbeddings in Hres.
  destruct embeddings as [|first rest]; [done|].
  destruct (negb _); [done|].
  apply bind_Ok_inv in Hres as (normalized & Hn & Hres).
  apply bind_Ok_inv in Hres as (scored & Hs & Hres).
  apply slicePrefix_inv in Hres as [_ ->].
  exists normalized, scored. repeat split; try done.
  assert (len (sortSlice similarityLess scored) = len (first :: rest)) as ->.
  { unfold len. by rewrite (Permutation_length (sortSlice_perm similarityLess scored)),
      (scoreEmbeddings_length _ _ _ _ _ Hs). }
  do 2 f_equal. destruct (Z.ltb_spec (len (first :: rest)) topN); lia.
Qed.

(** X6: what [getTopNSimilarEmbeddings] returns is the top of the
    scored candidates: together with the entries it drops it is a
    rearrangement of the slots of all candidates, it has
    [min topN (number of candidates)] entries, and, when no score is
    NaN, no dropped entry has a score above a returned one. *)
Theorem getTopNSimilarEmbeddings_top `{GoRuntime} q embeddings ids topN sims :
  getTopNSimilarEmbeddings q embeddings ids topN = Ok sims ->
  exists normalized scored dropped,
    normalizeVector q = Ok normalized /\
    scoreEmbeddings normalized embeddings ids 0 = Ok scored /\
    sims ++ dropped ≡ₚ scored /\
    len sims = Z.min topN (len embeddings) /\
    (noNaN (map Similarity_Score scored) ->
     forall a b, a ∈ sims -> b ∈ dropped ->
       PrimFloat.leb (Similarity_Score b) (Similarity_Score a) = true).
Proof.
  intros Hres.
  destruct (getTopNSimilarEmbeddings_inv _ _ _ _ _ Hres)
    as (normalized & scored & Hn & Hs & HtopN & ->).
  set (n := Z.to_nat (Z.min topN (len embeddings))).
  set (sorted := sortSlice similarityLess scored).
  assert (Hperm : sorted ≡ₚ scored) by apply sortSlice_perm.
  exists normalized, scored, (drop n sorted).
  split; [done|]. split; [done|]. split; [by rewrite take_drop|]. split.
  - unfold len. rewrite length_take, (Permutation_length Hperm),
      (scoreEmbeddings_length _ _ _ _ _ Hs). unfold n, len. lia.
  - intros Hnan a b Ha Hb.
    assert (Hdesc : descending (map Similarity_Score (take n sorted ++ drop n sorted))).
    { rewrite take_drop. apply (ordered_descending Similarity_Score).
      - apply sortSlice_ordered, similarityLess_asym.
      - unfold noNaN. by rewrite (Permutation_map Similarity_Score Hperm). }
    rewrite map_app in Hdesc.
    apply (StronglySorted_app_1_elem_of _ _ _ _ _ Hdesc);
      apply list_elem_of_In, in_map, list_elem_of_In; done.
Qed.

(** X6 on the first case of the repository's test of the ranker, with
    [topN] of one. *)
Lemma getTopNSimilarEmbeddings_top_witness :
  @getTopNSimilarEmbeddings ascii_runtime [3; 4]%float [[1; 0]; [0; 1]]%float ["a_0"; "b_0"] 1
  = Ok [ {| Similarity_ID := "b_0"; Similarity_Score := (4 / 5)%float |} ] /\
  exists normalized scored dropped,
    normalizeVector [3; 4]%float = Ok normalized /\
    scoreEmbeddings normalized [[1; 0]; [0; 1]]%float ["a_0"; "b_0"] 0 = Ok scored /\
    [ {| Similarity_ID := "b_0"; Similarity_Score := (4 / 5)%float |} ] ++ dropped ≡ₚ scored /\
    len [ {| Similarity_ID := "b_0"; Similarity_Score := (4 / 5)%float |} ]
    = Z.min 1 (len [[1; 0]; [0; 1]]%float) /\
    (noNaN (map Similarity_Score scored) ->
     forall a b, a ∈ [ {| Similarity_ID := "b_0"; Similarity_Score := (4 / 5)%float |} ] ->
       b ∈ dropped ->
       PrimFloat.leb (Similarity_Score b) (Similarity_Score a) = true).
Proof.
  assert (Hres : @getTopNSimilarEmbeddings ascii_runtime [3; 4]%float [[1; 0]; [0; 1]]%float
                   ["a_0"; "b_0"] 1
                 = Ok [ {| Similarity_ID := "b_0"; Similarity_Score := (4 / 5)%float |} ])
    by (vm_compute; reflexivity).
  split; [exact Hres|].
  exact (@getTopNSimilarEmbeddings_top ascii_runtime _ _ _ _ _ Hres).
Defined.

(** X7: every entry [getTopNSimilarEmbeddings] returns belongs to a
    candidate: it is the candidate's id with the dot product of the
    normalized query and the candidate's vector, or, for a candidate
    whose length is not the query's, the zero slot. *)
Theorem getTopNSimilarEmbeddings_entries `{GoRuntime} q embeddings ids topN sims :
  getTopNSimilarEmbeddings q embeddings ids topN = Ok sims ->
  exists normalized,
    normalizeVector q = Ok normalized /\
    forall s, s ∈ sims ->
      exists i e, embeddings !! i = Some e /\
        ((dotProduct normalized e = Ok (Similarity_Score s) /\
          ids !! i = Some (Similarity_ID s)) \/
         (length e <> length q /\ s = zeroSimilarity)).
Proof.
  intros Hres.
  destruct (getTopNSimilarEmbeddings_inv _ _ _ _ _ Hres)
    as (normalized & scored & Hn & Hs & HtopN & ->).
  exists normalized. split; [done|]. intros s Hin.
  apply subseteq_take in Hin. rewrite (sortSlice_perm similarityLess scored) in Hin.
  apply list_elem_of_lookup in Hin as [j Hj].
  destruct (scoreEmbeddings_entries _ _ _ _ _ Hs j s Hj) as (e & He & Hcase).
  exists j, e. split; [done|].
  destruct Hcase as [(score & Hdot & Hid & <-)|[Hlen ->]]; [by left|right].
  split; [|done]. by rewrite <- (normalizeVector_length _ _ Hn).
Qed.

Lemma getTopNSimilarEmbeddings_entries_witness :
  @getTopNSimilarEmbeddings ascii_runtime [1; 0]%float [[1; 0]; [1; 0; 0]]%float
    ["a_0"; "b_0"] 2
  = Ok [ {| Similarity_ID := "a_0"; Similarity_Score := 1%float |}; zeroSimilarity ] /\
  exists normalized,
    normalizeVector [1; 0]%float = Ok normalized /\
    forall s, s ∈ [ {| Similarity_ID := "a_0"; Similarity_Score := 1%float |}; zeroSimilarity ] ->
      exists i e, [[1; 0]; [1; 0; 0]]%float !! i = Some e /\
        ((dotProduct normalized e = Ok (Similarity_Score s) /\
          ["a_0"; "b_0"] !! i = Some (Similarity_ID s)) \/
         (length e <> length [1; 0]%float /\ s = zeroSimilarity)).
Proof.
  assert (Hres : @getTopNSimilarEmbeddings ascii_runtime [1; 0]%float [[1; 0]; [1; 0; 0]]%float
                   ["a_0"; "b_0"] 2
                 = Ok [ {| Similarity_ID := "a_0"; Similarity_Score := 1%float |}; zeroSimilarity ])
    by (vm_compute; reflexivity).
  split; [exact Hres|].
  exact (@getTopNSimilarEmbeddings_entries ascii_runtime _ _ _ _ _ Hres).
Defined.

(** ** The collection and its segmenter, further *)

(** X8: [NewCollection] returns a collection exactly for an embedding
    function that is not nil, a chunk size above zero, an overlap from
    zero to below the chunk size and three names that are not empty;
    otherwise it returns an error. The collection it returns has the
    configuration it was given and no documents. *)
Theorem NewCollection_valid name docType queryType chunkSize chunkOverlap f :
  ((exists g, f = Some g) /\ 0 < chunkSize /\ 0 <= chunkOverlap < chunkSize /\
   name <> EmptyString /\ docType <> EmptyString /\ queryType <> EmptyString
   <-> exists c, NewCollection name docType queryType chunkSize chunkOverlap f = Ok c) /\
  is_Ok (NewCollection name docType queryType chunkSize chunkOverlap f)
  || is_Err (NewCollection name docType queryType chunkSize chunkOverlap f) = true /\
  (forall c, NewCollection name docType queryType chunkSize chunkOverlap f = Ok c ->
     Name c = name /\ embeddingDocumentType c = docType /\ embeddingQueryType c = queryType /\
     ChunkSize c = chunkSize /\ ChunkOverlap c = chunkOverlap /\
     f = Some (embeddingFunc c) /\ documents c = ∅ /\ Length c = 0).
Proof.
  unfold NewCollection. destruct f as [g|].
  2:{ split; [split; [intros [[g [=]] _] | intros [c [=]]]|]. split; [done | intros c [=]]. }
  destruct (Z.leb_spec chunkSize 0).
  { split; [split; [lia | intros [c [=]]]|]. split; [done | intros c [=]]. }
  destruct (Z.ltb_spec chunkOverlap 0).
  { split; [split; [lia | intros [c [=]]]|]. split; [done | intros c [=]]. }
  destruct (Z.leb_spec chunkSize chunkOverlap).
  { split; [split; [lia | intros [c [=]]]|]. split; [done | intros c [=]]. }
  repeat case_decide;
    try (split; [split; [intros (_ & _ & _ & ? & ? & ?); done | intros [c [=]]]|];
         split; [done | intros c [=]]).
  split; [split; [eauto | intros _; repeat split; eauto; lia]|].
  split; [done|]. intros c [= <-]. simpl. repeat split; done.
Qed.

Lemma NewCollection_valid_witness :
  NewCollection "test" "docType" "queryType" 100 10 (Some mockEmbeddingFunc) = Ok testCollection /\
  Name testCollection = "test"%string /\ embeddingDocumentType testCollection = "docType"%string /\
  embeddingQueryType testCollection = "queryType"%string /\
  ChunkSize testCollection = 100 /\ ChunkOverlap testCollection = 10 /\
  Some mockEmbeddingFunc = Some (embeddingFunc testCollection) /\
  documents testCollection = ∅ /\ Length testCollection = 0.
Proof.
  assert (Hnew : NewCollection "test" "docType" "queryType" 100 10 (Some mockEmbeddingFunc)
                 = Ok testCollection) by reflexivity.
  split; [exact Hnew|].
  exact (proj2 (proj2 (NewCollection_valid "test" "docType" "queryType" 100 10
                         (Some mockEmbeddingFunc))) testCollection Hnew).
Defined.

Lemma NewCollection_config name docType queryType chunkSize chunkOverlap f c :
  NewCollection name docType queryType chunkSize chunkOverlap f = Ok c ->
  0 < chunkSize /\ 0 <= chunkOverlap < chunkSize /\
  ChunkSize c = chunkSize /\ ChunkOverlap c = chunkOverlap /\ documents c = ∅.
Proof.
  unfold NewCollection. destruct f as [g|]; [|done].
  destruct (Z.leb_spec chunkSize 0); [done|].
  destruct (Z.ltb_spec chunkOverlap 0); [done|].
  destruct (Z.leb_spec chunkSize chunkOverlap); [done|].
  repeat case_decide; try done.
  intros [= <-]. simpl. repeat split; done || lia.
Qed.

Lemma window_length (runes : list Z) S i :
  0 < S -> 0 <= i < len runes ->
  0 < len (window runes S i) <= S /\
  (i + S <= len runes -> len (window runes S i) = S).
Proof.
  intros HS Hi. unfold window, len in *.
  rewrite length_take, length_drop. lia.
Qed.

Lemma windowStarts_bound S O L i :
  0 < S -> 0 <= O < S -> In i (windowStarts S O L) -> 0 <= i < L.
Proof.
  intros HS HO Hin. unfold windowStarts in Hin.
  apply in_map_iff in Hin as (k & <- & Hk). apply in_seq in Hk.
  unfold windowCount in Hk.
  assert (Hq : Z.of_nat k + 1 <= (L + (S - O) - 1) / (S - O)) by lia.
  pose proof (Z.mul_div_le (L + (S - O) - 1) (S - O)). nia.
Qed.

(** X9: on a collection [NewCollection] returned, for a content of [L]
    code points with [L + ChunkSize] within the range of [int],
    [splitText] returns [ceil(L / (ChunkSize - ChunkOverlap))] chunks
    (none for an empty content), each of at least one and at most
    [ChunkSize] code points. *)
Theorem splitText_count_and_sizes `{GoRuntime} name docType queryType chunkSize chunkOverlap
    f c text :
  NewCollection name docType queryType chunkSize chunkOverlap f = Ok c ->
  len (runes_of_string text) + chunkSize <= MaxInt ->
  exists ws,
    splitText c text = Ok (map string_of_runes ws) /\
    Z.of_nat (length ws)
    = (len (runes_of_string text) + (chunkSize - chunkOverlap) - 1) / (chunkSize - chunkOverlap) /\
    Forall (fun w => 0 < len w <= chunkSize) ws /\
    (ws = [] <-> runes_of_string text = []).
Proof.
  intros Hnew Hfit.
  destruct (NewCollection_config _ _ _ _ _ _ _ Hnew) as (HS & HO & HcS & HcO & _).
  set (runes := runes_of_string text) in *.
  assert (HL : 0 <= len runes) by (unfold len; lia).
  exists (windows runes chunkSize chunkOverlap).
  assert (Hq : 0 <= (len runes + (chunkSize - chunkOverlap) - 1) / (chunkSize - chunkOverlap))
    by (apply Z.div_pos; lia).
  assert (Hcount : Z.of_nat (length (windows runes chunkSize chunkOverlap))
            = (len runes + (chunkSize - chunkOverlap) - 1) / (chunkSize - chunkOverlap)).
  { unfold windows, windowStarts. rewrite !length_map, length_seq. unfold windowCount. lia. }
  split; [|split; [done|split]].
  - unfold splitText. fold runes. rewrite HcS, HcO.
    rewrite (splitTextLoop_windows chunkSize chunkOverlap runes HS HO Hfit
               (windowCount chunkSize chunkOverlap (len runes)));
      [| lia | by rewrite Z.sub_0_r |].
    + simpl app. unfold windows, windowStarts. by rewrite !map_map.
    + pose proof (windowCount_le chunkSize chunkOverlap (len runes) HS HO HL).
      unfold len in *. lia.
  - unfold windows. apply Forall_forall. intros w Hw.
    apply list_elem_of_In, in_map_iff in Hw as (i & <- & Hi).
    apply windowStarts_bound in Hi; [|done..].
    by apply window_length.
  - split.
    + intros Hnil. rewrite Hnil in Hcount. simpl in Hcount.
      destruct runes as [|r runes']; [done|]. exfalso.
      assert (1 <= (len (r :: runes') + (chunkSize - chunkOverlap) - 1) / (chunkSize - chunkOverlap));
        [|lia].
      apply Z.div_le_lower_bound; unfold len; simpl length; lia.
    + intros Hnil. rewrite Hnil in *. apply length_zero_iff_nil. apply Nat2Z.inj.
      rewrite Hcount. change (len []) with 0. rewrite Z.div_small; lia.
Qed.

(** X9 on the collection of the tests and a content of 250 characters:
    [ceil(250 / 90) = 3] chunks. *)
Lemma splitText_count_and_sizes_witness :
  NewCollection "test" "docType" "queryType" 100 10 (Some mockEmbeddingFunc) = Ok testCollection /\
  len (ascii_runes content250) + 100 <= MaxInt /\
  exists ws,
    @splitText ascii_runtime testCollection content250 = Ok (map ascii_string ws) /\
    Z.of_nat (length ws) = (len (ascii_runes content250) + (100 - 10) - 1) / (100 - 10) /\
    Forall (fun w => 0 < len w <= 100) ws /\
    (ws = [] <-> ascii_runes content250 = []).
Proof.
  assert (Hnew : NewCollection "test" "docType" "queryType" 100 10 (Some mockEmbeddingFunc)
                 = Ok testCollection) by reflexivity.
  assert (Hfit : len (@runes_of_string ascii_runtime content250) + 100 <= MaxInt)
    by (vm_compute; discriminate).
  split; [exact Hnew|]. split; [exact Hfit|].
  exact (@splitText_count_and_sizes ascii_runtime _ _ _ _ _ _ _ content250 Hnew Hfit).
Defined.

Lemma size_delete_present {A} (m : gmap string A) id x :
  m !! id = Some x -> size m = S (size (delete id m)).
Proof.
  intros Hx. rewrite <- (insert_id m id x) at 1 by done.
  rewrite <- insert_delete_eq. apply map_size_insert_None, lookup_delete_eq.
Qed.

(** X10: [DeleteDocument] of an ID that is not stored returns the
    not-found error and the collection as it was. Of a stored ID it
    succeeds: the ID is no longer found, every other ID is found as
    before, [Length] is one less, and deleting the same ID again
    fails. *)
Theorem DeleteDocument_removes c id :
  (documents c !! id = None ->
   DeleteDocument c id = (c, Err ("document with ID " +:+ id +:+ " not found"))) /\
  (is_Some (documents c !! id) ->
   exists c',
     DeleteDocument c id = (c', Ok tt) /\
     GetDocument c' id = None /\
     (forall id', id' <> id -> GetDocument c' id' = GetDocument c id') /\
     Length c' = Length c - 1 /\
     DeleteDocument c' id = (c', Err ("document with ID " +:+ id +:+ " not found"))).
Proof.
  unfold DeleteDocument, GetDocument, Length. split.
  - by intros ->.
  - intros [p Hp]. rewrite Hp. eexists. split; [done|]. simpl.
    rewrite lookup_delete_eq. split; [done|]. split; [|split; [|done]].
    + intros id' Hne. by rewrite lookup_delete_ne.
    + rewrite (size_delete_present _ _ _ Hp). lia.
Qed.

(** X10 on the collection of two queries: its document "X". *)
Lemma DeleteDocument_removes_witness :
  is_Some (documents mergeCollection !! "X"%string) /\
  exists c',
    DeleteDocument mergeCollection "X" = (c', Ok tt) /\
    GetDocument c' "X" = None /\
    (forall id', id' <> "X"%string -> GetDocument c' id' = GetDocument mergeCollection id') /\
    Length c' = Length mergeCollection - 1 /\
    DeleteDocument c' "X" = (c', Err ("document with ID " +:+ "X" +:+ " not found")).
Proof.
  assert (Hx : is_Some (documents mergeCollection !! "X"%string))
    by (eexists; vm_compute; reflexivity).
  split; [exact Hx|].
  exact (proj2 (DeleteDocument_removes mergeCollection "X") Hx).
Defined.

(** X11: [UpdateDocument] of an allocated document succeeds exactly when
    the document's ID is not empty and is stored and its content is not
    empty. When it does not succeed the collection is as it was; when it
    succeeds the ID is found as the new document, every other ID is
    found as before, and [Length] is unchanged. *)
Theorem UpdateDocument_replaces c h doc d :
  documents_at h !! doc = Some d ->
  (ID d <> EmptyString /\ is_Some (documents c !! ID d) /\ Content d <> EmptyString
   <-> exists c', UpdateDocument c h doc = (c', Ok tt)) /\
  (forall c' r, UpdateDocument c h doc = (c', r) -> r <> Ok tt -> c' = c) /\
  (forall c', UpdateDocument c h doc = (c', Ok tt) ->
     GetDocument c' (ID d) = Some doc /\
     (forall id', id' <> ID d -> GetDocument c' id' = GetDocument c id') /\
     Length c' = Length c).
Proof.
  intros Hd. unfold UpdateDocument, GetDocument, Length. rewrite Hd.
  destruct (decide (ID d = EmptyString)) as [Hid|Hid].
  { split; [split; [by intros [? _] | by intros [c' [=]]]|].
    split; [by intros c' r [= <- _] | by intros c' [=]]. }
  destruct (decide (documents c !! ID d = None)) as [Hnone|Hsome].
  { split; [split; [intros (_ & [? ?] & _); congruence | by intros [c' [=]]]|].
    split; [by intros c' r [= <- _] | by intros c' [=]]. }
  destruct (decide (Content d = EmptyString)) as [Hc|Hc].
  { split; [split; [by intros (_ & _ & ?) | by intros [c' [=]]]|].
    split; [by intros c' r [= <- _] | by intros c' [=]]. }
  assert (Hpresent : is_Some (documents c !! ID d)).
  { destruct (documents c !! ID d); [eauto | done]. }
  split; [split; [eauto | done]|].
  split; [by intros c' r [= <- <-] ?|].
  intros c' [= <-]. simpl. rewrite lookup_insert_eq. split; [done|]. split.
  - intros id' Hne. by rewrite lookup_insert_ne.
  - by rewrite map_size_insert_Some.
Qed.

(** X11 on the collection of two queries: its document is updated by
    itself. *)
Lemma UpdateDocument_replaces_witness :
  let d := {| ID := "X"; Metadata := ∅; Segments := [1%positive; 2%positive];
              Content := "first second" |} in
  documents_at mergeHeap !! 1%positive = Some d /\
  (exists c', UpdateDocument mergeCollection mergeHeap 1%positive = (c', Ok tt)) /\
  (forall c', UpdateDocument mergeCollection mergeHeap 1%positive = (c', Ok tt) ->
     GetDocument c' (ID d) = Some 1%positive /\
     (forall id', id' <> ID d -> GetDocument c' id' = GetDocument mergeCollection id') /\
     Length c' = Length mergeCollection).
Proof.
  intros d.
  assert (Hd : documents_at mergeHeap !! 1%positive = Some d) by (vm_compute; reflexivity).
  destruct (UpdateDocument_replaces mergeCollection mergeHeap 1%positive d Hd)
    as (Hiff & _ & Hok).
  split; [exact Hd|]. split; [|exact Hok].
  apply Hiff. split; [discriminate|]. split; [|discriminate].
  eexists. vm_compute. reflexivity.
Defined.

(** ** What the store keeps *)

Lemma heap_extends_refl h : heap_extends h h.
Proof. split; [done|]. intros p d Hd. exists d. repeat split; done. Qed.

Lemma heap_extends_trans h1 h2 h3 :
  heap_extends h1 h2 -> heap_extends h2 h3 -> heap_extends h1 h3.
Proof.
  intros [Hs12 Hd12] [Hs23 Hd23]. split; [by auto|].
  intros p d Hd.
  destruct (Hd12 p d Hd) as (d2 & Hd2 & Hid2 & Hm2 & Hc2 & Hp2).
  destruct (Hd23 p d2 Hd2) as (d3 & Hd3 & Hid3 & Hm3 & Hc3 & Hp3).
  exists d3. repeat split; try congruence. by etrans.
Qed.

Lemma newSegment_lookup h s :
  segments_at h !! (newSegment h s).1 = None /\
  segments_at (newSegment h s).2 !! (newSegment h s).1 = Some s.
Proof.
  simpl. split; [|apply lookup_insert_eq].
  apply not_elem_of_dom. apply is_fresh.
Qed.

Lemma newSegment_append_extends h s doc :
  heap_extends h (appendSegment (newSegment h s).2 doc (newSegment h s).1).
Proof.
  destruct (newSegment_lookup h s) as [Hfresh _]. split.
  - intros q s' Hq. simpl. rewrite lookup_insert_ne; [done|]. intros <-.
    simpl in Hfresh. congruence.
  - intros p d Hd. simpl. rewrite lookup_alter. case_decide as Hp.
    + subst p. rewrite Hd. simpl. eexists. split; [done|]. simpl.
      repeat split; try done. by apply prefix_app_r.
    + exists d. repeat split; done.
Qed.

Lemma addSegments_extends doc segments embeddings : forall h i h' r,
  addSegments h doc segments i embeddings = (h', r) -> heap_extends h h'.
Proof.
  induction embeddings as [|e rest IH]; intros h i h' r; simpl.
  - intros [= <- _]. apply heap_extends_refl.
  - destruct (normalizeVector e) as [norm| | |];
      try (intros [= <- _]; apply heap_extends_refl).
    destruct (segments !! i) as [text|]; [|intros [= <- _]; apply heap_extends_refl].
    intros Hrest. apply IH in Hrest.
    eapply heap_extends_trans; [|exact Hrest].
    apply (newSegment_append_extends h {| Text := text; Embedding := norm |}).
Qed.

Lemma embedSegments_extends doc embeddings segments : forall h i h' r,
  embedSegments h doc embeddings i segments = (h', r) -> heap_extends h h'.
Proof.
  induction segments as [|text rest IH]; intros h i h' r; simpl.
  - intros [= <- _]. apply heap_extends_refl.
  - destruct (embeddings !! i) as [e|]; [|intros [= <- _]; apply heap_extends_refl].
    intros Hrest. apply IH in Hrest.
    eapply heap_extends_trans; [|exact Hrest].
    apply (newSegment_append_extends h {| Text := text; Embedding := e |}).
Qed.

Lemma embedDocument_extends `{GoRuntime} c h doc h' r :
  embedDocument c h doc = (h', r) -> heap_extends h h'.
Proof.
  unfold embedDocument.
  destruct (documents_at h !! doc) as [d|]; [|intros [= <- _]; apply heap_extends_refl].
  case_decide; [intros [= <- _]; apply heap_extends_refl|].
  destruct (splitText c (Content d)) as [segments| | |];
    try (intros [= <- _]; apply heap_extends_refl).
  destruct (embeddingFunc c segments (embeddingDocumentType c)) as [embeddings| | |];
    try (intros [= <- _]; apply heap_extends_refl).
  destruct (normalizeAll embeddings) as [normalized| | |];
    try (intros [= <- _]; apply heap_extends_refl).
  apply embedSegments_extends.
Qed.

Lemma embedAll_extends `{GoRuntime} c docs : forall h h' r,
  embedAll c h docs = (h', r) -> heap_extends h h'.
Proof.
  induction docs as [|[id doc] rest IH]; intros h h' r; simpl.
  - intros [= <- _]. apply heap_extends_refl.
  - destruct (embedDocument c h doc) as [h1 r1] eqn:Hdoc.
    apply embedDocument_extends in Hdoc.
    destruct r1 as [[]| | |]; try (intros [= <- _]; done).
    intros Hrest. eapply heap_extends_trans; [done | by eapply IH].
Qed.

Lemma AddDocument_extends `{GoRuntime} c h doc c' h' r :
  AddDocument c h doc = (c', h', r) -> heap_extends h h'.
Proof.
  unfold AddDocument.
  destruct (documents_at h !! doc) as [d|]; [|intros [= _ <- _]; apply heap_extends_refl].
  repeat (case_decide; [intros [= _ <- _]; apply heap_extends_refl|]).
  destruct (splitText c (Content d)) as [segments| | |];
    try (intros [= _ <- _]; apply heap_extends_refl).
  destruct (embeddingFunc c segments (embeddingDocumentType c)) as [embeddings| | |];
    try (intros [= _ <- _]; apply heap_extends_refl).
  destruct (addSegments h doc segments 0 embeddings) as [h1 r1] eqn:Hadd.
  apply addSegments_extends in Hadd.
  destruct r1 as [[]| | |]; intros [= _ <- _]; done.
Qed.

(** X12: [AddDocument] and [EmbedDocuments] only add to the heap,
    whatever they return: a segment that existed is still there with
    the same text and embedding, and a document that existed has the
    same ID, metadata and content and its former segments in front of
    its segments. No segment is removed or replaced. *)
Theorem store_only_adds `{GoRuntime} c h :
  (forall doc c' h' r, AddDocument c h doc = (c', h', r) -> heap_extends h h') /\
  (forall h' r, EmbedDocuments c h = (h', r) -> heap_extends h h').
Proof.
  split.
  - intros doc c' h' r. apply AddDocument_extends.
  - intros h' r. apply embedAll_extends.
Qed.

(** X12 on the scenario of the tests: the test document is added, then
    [EmbedDocuments] runs. *)
Lemma store_only_adds_witness :
  heap_extends testHeap (@AddDocument ascii_runtime testCollection testHeap 1%positive).1.2 /\
  heap_extends (@AddDocument ascii_runtime testCollection testHeap 1%positive).1.2
    (@EmbedDocuments ascii_runtime
       (@AddDocument ascii_runtime testCollection testHeap 1%positive).1.1
       (@AddDocument ascii_runtime testCollection testHeap 1%positive).1.2).1.
Proof.
  destruct (@AddDocument ascii_runtime testCollection testHeap 1%positive) as [[c1 h1] r1] eqn:E1.
  cbn [fst snd].
  destruct (@EmbedDocuments ascii_runtime c1 h1) as [h2 r2] eqn:E2.
  cbn [fst snd]. split.
  - exact (proj1 (@store_only_adds ascii_runtime testCollection testHeap) _ _ _ _ E1).
  - exact (proj2 (@store_only_adds ascii_runtime c1 h1) _ _ E2).
Defined.

Lemma addSegments_appends doc segments embeddings : forall h i h' d,
  addSegments h doc segments i embeddings = (h', Ok tt) ->
  documents_at h !! doc = Some d ->
  exists new,
    length new = length embeddings /\
    Segments <$> (documents_at h' !! doc) = Some (Segments d ++ new) /\
    forall j p, new !! j = Some p ->
      exists text e norm,
        segments !! (i + j)%nat = Some text /\ embeddings !! j = Some e /\
        normalizeVector e = Ok norm /\
        segments_at h' !! p = Some {| Text := text; Embedding := norm |}.
Proof.
  induction embeddings as [|e rest IH]; intros h i h' d; simpl.
  - intros [= <-] Hd. exists []. rewrite Hd, app_nil_r. done.
  - destruct (normalizeVector e) as [norm| | |] eqn:Hnorm; try done.
    destruct (segments !! i) as [text|] eqn:Htext; [|done].
    intros Hrest Hd.
    set (s := {| Text := text; Embedding := norm |}) in *.
    pose proof (addSegments_extends _ _ _ _ _ _ _ Hrest) as [Hkept _].
    eapply IH in Hrest as (new & Hlen & Hsegs & Hnew).
    2:{ simpl. rewrite lookup_alter, decide_True, Hd by done. reflexivity. }
    simpl in Hsegs. rewrite <- app_assoc in Hsegs.
    exists (fresh (dom (segments_at h)) :: new).
    split; [simpl; by rewrite Hlen|]. split; [exact Hsegs|].
    intros [|j] p Hp; simpl in Hp.
    + injection Hp as <-. exists text, e, norm. rewrite Nat.add_0_r.
      repeat split; try done. apply Hkept. simpl. apply lookup_insert_eq.
    + destruct (Hnew j p Hp) as (text' & e' & norm' & H1 & H2 & H3 & H4).
      exists text', e', norm'. rewrite <- Nat.add_succ_comm. done.
Qed.

(** X13: when [AddDocument] succeeds, the document had an ID that is not
    empty and was not stored and a content that is not empty; afterwards
    the ID is found as the document, every other ID is found as before
    and [Length] is one more; and the document got, behind the segments
    it had, one new segment for each vector the embedding function
    returned for the chunks of its content, holding the chunk of the
    same index and the normalized vector. *)
Theorem AddDocument_success `{GoRuntime} c h doc c' h' d :
  AddDocument c h doc = (c', h', Ok tt) ->
  documents_at h !! doc = Some d ->
  ID d <> EmptyString /\ documents c !! ID d = None /\ Content d <> EmptyString /\
  GetDocument c' (ID d) = Some doc /\
  (forall id', id' <> ID d -> GetDocument c' id' = GetDocument c id') /\
  Length c' = Length c + 1 /\
  exists segments embeddings new,
    splitText c (Content d) = Ok segments /\
    embeddingFunc c segments (embeddingDocumentType c) = Ok embeddings /\
    length new = length embeddings /\
    Segments <$> (documents_at h' !! doc) = Some (Segments d ++ new) /\
    forall j p, new !! j = Some p ->
      exists text e norm,
        segments !! j = Some text /\ embeddings !! j = Some e /\
        normalizeVector e = Ok norm /\
        segments_at h' !! p = Some {| Text := text; Embedding := norm |}.
Proof.
  unfold AddDocument, GetDocument, Length. intros Hadd Hd. rewrite Hd in Hadd.
  destruct (decide (ID d = EmptyString)) as [|Hid]; [done|].
  destruct (decide (is_Some (documents c !! ID d))) as [|Hnew]; [done|].
  destruct (decide (Content d = EmptyString)) as [|Hc]; [done|].
  destruct (splitText c (Content d)) as [segments| | |] eqn:Hsplit; try done.
  destruct (embeddingFunc c segments (embeddingDocumentType c)) as [embeddings| | |] eqn:Hemb;
    try done.
  destruct (addSegments h doc segments 0 embeddings) as [h1 r1] eqn:Hsegs.
  destruct r1 as [[]| | |]; try done. injection Hadd as <- <-.
  assert (Hnone : documents c !! ID d = None).
  { destruct (documents c !! ID d) eqn:E; [|done]. exfalso. apply Hnew. eauto. }
  split; [done|]. split; [done|]. split; [done|]. simpl.
  rewrite lookup_insert_eq. split; [done|]. split; [|split].
  - intros id' Hne. by rewrite lookup_insert_ne.
  - rewrite map_size_insert_None by done. lia.
  - destruct (addSegments_appends _ _ _ _ _ _ _ Hsegs Hd) as (new & Hlen & Hs & Hnew').
    exists segments, embeddings, new.
    split; [done|]. split; [done|]. split; [done|]. split; [done|]. exact Hnew'.
Qed.

(** X13 on the first step of the repository's tests: the test document
    is added to the new collection. *)
Lemma AddDocument_success_witness :
  exists c' h',
    @AddDocument ascii_runtime testCollection testHeap 1%positive = (c', h', Ok tt) /\
    documents_at testHeap !! 1%positive = Some testDocument /\
    GetDocument c' (ID testDocument) = Some 1%positive /\
    Length c' = Length testCollection + 1 /\
    Segments <$> (documents_at h' !! 1%positive) = Some [1%positive] /\
    segments_at h' !! 1%positive
    = Some {| Text := "This is a test document.";
              Embedding := [1 / sqrt 5; 2 / sqrt 5]%float |}.
Proof.
  destruct (@AddDocument ascii_runtime testCollection testHeap 1%positive) as [[c' h'] r] eqn:E.
  assert (Hr : r = Ok tt) by (vm_compute in E; congruence).
  subst r. exists c', h'.
  assert (Hd : documents_at testHeap !! 1%positive = Some testDocument)
    by (vm_compute; reflexivity).
  destruct (@AddDocument_success ascii_runtime _ _ _ _ _ _ E Hd)
    as (_ & _ & _ & Hget & _ & Hlen & _).
  split; [reflexivity|]. split; [exact Hd|]. split; [exact Hget|]. split; [exact Hlen|].
  vm_compute in E. injection E as <- <-. split; vm_compute; reflexivity.
Defined.

Lemma set_documents_same c : set_documents c (documents c) = c.
Proof. by destruct c. Qed.

(** X14: after [AddDocument] succeeded, [DeleteDocument] of the
    document's ID succeeds and gives back the collection as it was
    before the document was added, and adding the same document again
    fails as a duplicate and changes nothing. *)
Theorem AddDocument_then_delete_or_add `{GoRuntime} c h doc c' h' d :
  AddDocument c h doc = (c', h', Ok tt) ->
  documents_at h !! doc = Some d ->
  DeleteDocument c' (ID d) = (c, Ok tt) /\
  AddDocument c' h' doc
  = (c', h', Err ("document with ID " +:+ ID d +:+ " already exists")).
Proof.
  intros Hadd Hd.
  pose proof (AddDocument_extends _ _ _ _ _ _ Hadd) as [_ Hdocs].
  destruct (Hdocs doc d Hd) as (d' & Hd' & Hid' & _ & Hc' & _).
  unfold AddDocument in Hadd. rewrite Hd in Hadd.
  destruct (decide (ID d = EmptyString)) as [|Hid]; [done|].
  destruct (decide (is_Some (documents c !! ID d))) as [|Hnew]; [done|].
  destruct (decide (Content d = EmptyString)) as [|Hc]; [done|].
  destruct (splitText c (Content d)) as [segments| | |]; try done.
  destruct (embeddingFunc c segments (embeddingDocumentType c)) as [embeddings| | |]; try done.
  destruct (addSegments h doc segments 0 embeddings) as [h1 r1].
  destruct r1 as [[]| | |]; try done. injection Hadd as <- <-.
  assert (Hnone : documents c !! ID d = None).
  { destruct (documents c !! ID d) eqn:E; [|done]. exfalso. apply Hnew. eauto. }
  split.
  - unfold DeleteDocument. simpl. rewrite lookup_insert_eq.
    rewrite delete_insert_id by done. destruct c; done.
  - unfold AddDocument. rewrite Hd', Hid'. simpl.
    rewrite decide_False by done.
    rewrite decide_True by (rewrite lookup_insert_eq; eauto). done.
Qed.

(** X14 on the repository's test of [AddDocument]: the test document is
    added, and added again. *)
Lemma AddDocument_then_delete_or_add_witness :
  let added := @AddDocument ascii_runtime testCollection testHeap 1%positive in
  added.2 = Ok tt /\
  documents_at testHeap !! 1%positive = Some testDocument /\
  DeleteDocument added.1.1 "1" = (testCollection, Ok tt) /\
  @AddDocument ascii_runtime added.1.1 added.1.2 1%positive
  = (added.1.1, added.1.2, Err ("document with ID " +:+ "1" +:+ " already exists")).
Proof.
  intros added. unfold added.
  destruct (@AddDocument ascii_runtime testCollection testHeap 1%positive) as [[c' h'] r] eqn:E.
  assert (Hr : r = Ok tt) by (vm_compute in E; congruence).
  subst r. cbn [fst snd].
  assert (Hd : documents_at testHeap !! 1%positive = Some testDocument)
    by (vm_compute; reflexivity).
  split; [reflexivity|]. split; [exact Hd|].
  exact (@AddDocument_then_delete_or_add ascii_runtime _ _ _ _ _ _ E Hd).
Defined.

(** X15: when every stored document is allocated, [GetDocuments] returns
    a map with the keys of the document map that holds, under each key,
    the document stored under it as it is at the time of the call; it
    has [Length] entries. *)
Theorem GetDocuments_snapshot c h :
  (forall id p, documents c !! id = Some p -> is_Some (documents_at h !! p)) ->
  exists docs,
    GetDocuments c h = Ok docs /\
    (forall id, docs !! id = documents c !! id ≫= fun p => documents_at h !! p) /\
    Z.of_nat (size docs) = Length c.
Proof.
  unfold GetDocuments, Length.
  apply (map_fold_weak_ind
    (fun r m => (forall id p, m !! id = Some p -> is_Some (documents_at h !! p)) ->
       exists docs, r = Ok docs /\
         (forall id, docs !! id = m !! id ≫= fun p => documents_at h !! p) /\
         Z.of_nat (size docs) = Z.of_nat (size m))).
  - intros _. exists ∅. split; [done|]. split; [|done].
    intros id. by rewrite !lookup_empty.
  - intros id p m r Hnone IH Halloc.
    destruct IH as (docs & -> & Hdocs & Hsize).
    { intros id' p' Hp'. apply (Halloc id' p').
      rewrite lookup_insert_ne; [done|]. intros <-. congruence. }
    destruct (Halloc id p) as [d Hd]; [apply lookup_insert_eq|].
    obind. rewrite Hd. eexists. split; [done|]. split.
    + intros id'. rewrite !lookup_insert. case_decide; [by subst|]. apply Hdocs.
    + assert (docs !! id = None) by (by rewrite Hdocs, Hnone).
      rewrite !map_size_insert_None by done. lia.
Qed.

Lemma GetDocuments_snapshot_witness :
  (forall id p, documents mergeCollection !! id = Some p ->
     is_Some (documents_at mergeHeap !! p)) /\
  exists docs,
    GetDocuments mergeCollection mergeHeap = Ok docs /\
    (forall id, docs !! id
       = documents mergeCollection !! id ≫= fun p => documents_at mergeHeap !! p) /\
    Z.of_nat (size docs) = Length mergeCollection.
Proof.
  assert (Halloc : forall id p, documents mergeCollection !! id = Some p ->
                     is_Some (documents_at mergeHeap !! p)).
  { intros id p. simpl. rewrite lookup_singleton. case_decide; [|done].
    intros [= <-]. eexists. vm_compute. reflexivity. }
  split; [exact Halloc|].
  exact (GetDocuments_snapshot mergeCollection mergeHeap Halloc).
Defined.

(** ** The query engine, further *)





Lemma flattenDocuments_no_segments h docs :
  Forall (fun kv => exists d, documents_at h !! kv.2 = Some d /\ Segments d = []) docs ->
  flattenDocuments h docs = Ok [].
Proof.
  induction 1 as [|[docID doc] rest (d & Hd & Hsegs) _ IH]; simpl; [done|].
  simpl in Hd. rewrite Hd, Hsegs. simpl. obind. by rewrite IH.
Qed.

(** X17: [GetTopNSimilarDocuments] passes on the error of the embedding
    function, fails when the embedding function returns no vector for
    the query, and fails with "no embeddings provided" when no stored
    document has a segment, as in an empty collection. *)
Theorem GetTopNSimilarDocuments_errors `{GoRuntime} c h query topN :
  (forall e, embeddingFunc c [query] (embeddingQueryType c) = Err e ->
     GetTopNSimilarDocuments c h query topN = Err e) /\
  (embeddingFunc c [query] (embeddingQueryType c) = Ok [] ->
     GetTopNSimilarDocuments c h query topN = Err "no embeddings generated for the query") /\
  (forall q0 rest, embeddingFunc c [query] (embeddingQueryType c) = Ok (q0 :: rest) ->
     (forall id p, documents c !! id = Some p ->
        exists d, documents_at h !! p = Some d /\ Segments d = []) ->
     GetTopNSimilarDocuments c h query topN = Err "no embeddings provided").
Proof.
  unfold GetTopNSimilarDocuments. split; [|split].
  - by intros e ->.
  - by intros ->.
  - intros q0 rest -> Hempty. obind.
    rewrite flattenDocuments_no_segments; [done|].
    rewrite (shuffle_perm _ (map_to_list (documents c))).
    apply Forall_forall. intros [id p] Hin. apply elem_of_map_to_list in Hin.
    simpl. by eapply Hempty.
Qed.

(** X17 on the new collection of the tests, before a document is
    added. *)
Lemma GetTopNSimilarDocuments_errors_witness :
  embeddingFunc testCollection ["test query"%string] (embeddingQueryType testCollection)
  = Ok [[1; 2]%float] /\
  (forall id p, documents testCollection !! id = Some p ->
     exists d, documents_at testHeap !! p = Some d /\ Segments d = []) /\
  @GetTopNSimilarDocuments ascii_runtime testCollection testHeap "test query" 1
  = Err "no embeddings provided".
Proof.
  assert (Hq : embeddingFunc testCollection ["test query"%string]
                 (embeddingQueryType testCollection) = Ok [[1; 2]%float]) by reflexivity.
  assert (Hempty : forall id p, documents testCollection !! id = Some p ->
            exists d, documents_at testHeap !! p = Some d /\ Segments d = []).
  { intros id p. simpl. by rewrite lookup_empty. }
  split; [exact Hq|]. split; [exact Hempty|].
  exact (proj2 (proj2 (@GetTopNSimilarDocuments_errors ascii_runtime testCollection testHeap
                         "test query" 1)) _ _ Hq Hempty).
Defined.

(** ** AggregateResults, further *)








(** ** Candidate identifiers, further *)

Lemma lastIndexFrom_spec sep s : forall i last,
  ((sep ∉ String.list_ascii_of_string s) /\ lastIndexFrom sep s i last = last) \/
  exists s1 s2, s = s1 +:+ String sep s2 /\ (sep ∉ String.list_ascii_of_string s2) /\
                lastIndexFrom sep s i last = i + Z.of_nat (String.length s1).
Proof.
  induction s as [|a s IH]; intros i last; simpl.
  - left. split; [apply not_elem_of_nil | done].
  - destruct (IH (i + 1) (if Ascii.eqb a sep then i else last))
      as [[Hnot Hlast]|(s1 & s2 & -> & Hnot & Hlast)].
    + rewrite Hlast. destruct (Ascii.eqb_spec a sep) as [->|Hne].
      * right. exists EmptyString, s. split; [done|]. split; [done|]. simpl. lia.
      * left. split; [|done]. rewrite not_elem_of_cons. split; [congruence | done].
    + right. exists (String a s1), s2. split; [done|]. split; [done|].
      rewrite Hlast. simpl String.length. lia.
Qed.

Lemma not_elem_of_string_app (sep : ascii) (s1 s2 : string) :
  sep ∉ String.list_ascii_of_string (s1 +:+ s2) <->
  (sep ∉ String.list_ascii_of_string s1) /\ (sep ∉ String.list_ascii_of_string s2).
Proof.
  induction s1 as [|a s1 IH].
  - change (EmptyString +:+ s2) with s2. simpl. split; [|tauto].
    intros Hs. split; [apply not_elem_of_nil | done].
  - change (String a s1 +:+ s2) with (String a (s1 +:+ s2)). simpl.
    rewrite !not_elem_of_cons, IH. tauto.
Qed.

Lemma lastIndexFrom_last sep s1 s2 :
  sep ∉ String.list_ascii_of_string s2 ->
  LastIndex (s1 +:+ String sep s2) sep = Z.of_nat (String.length s1).
Proof.
  intros Hnot. unfold LastIndex. rewrite lastIndexFrom_app. simpl.
  rewrite Ascii.eqb_refl.
  destruct (lastIndexFrom_spec sep s2 (0 + Z.of_nat (String.length s1) + 1)
              (0 + Z.of_nat (String.length s1)))
    as [[_ ->]|(t1 & t2 & -> & _)]; [lia|].
  exfalso. apply not_elem_of_string_app in Hnot as [_ Hnot]. simpl in Hnot.
  apply Hnot. left.
Qed.

Lemma parseIDAndSegmentIndex_split docID rest :
  "_"%char ∉ String.list_ascii_of_string rest ->
  parseIDAndSegmentIndex (docID +:+ String "_" rest) = pair docID <$> Atoi rest.
Proof.
  intros Hnot. unfold parseIDAndSegmentIndex.
  rewrite (lastIndexFrom_last "_" docID rest Hnot).
  destruct (Z.eqb_spec (Z.of_nat (String.length docID)) (-1)) as [|_]; [lia|].
  rewrite Nat2Z.id, substring_app_l.
  replace (Z.to_nat (Z.of_nat (String.length docID) + 1)) with (String.length docID + 1)%nat by lia.
  rewrite substring_app_r, string_length_app. simpl String.length.
  replace (String.length docID + S (String.length rest) - (String.length docID + 1))%nat
    with (String.length rest) by lia.
  simpl String.substring. rewrite substring_all.
  by destruct (Atoi rest).
Qed.





(** ** Several queries, further *)

Lemma errNum_all queryResults :
  errNum queryResults = len queryResults <->
  Forall (fun r => is_Ok r = false) queryResults.
Proof.
  unfold errNum, len. rewrite Nat2Z.inj_iff.
  induction queryResults as [|r rest IH]; [by split; [constructor|]|].
  rewrite Forall_cons. destruct (is_Ok r) eqn:Hr.
  - rewrite filter_cons_False by congruence. simpl.
    pose proof (length_filter (fun r => is_Ok r = false) rest). split; [lia|].
    by intros [? _].
  - rewrite filter_cons_True by done. simpl. rewrite <- IH. split; [|intros [_ ->]; done].
    intros Hlen. split; [done | lia].
Qed.

Lemma firstCrash_Some queryResults crash :
  firstCrash queryResults = Some crash ->
  is_Ok crash || is_Err crash = false /\
  Exists (fun r => is_Ok r || is_Err r = false) queryResults.
Proof.
  induction queryResults as [|r rest IH]; simpl; [done|].
  destruct r; try (intros Hc; destruct (IH Hc); split; [done | by apply Exists_cons_tl]).
  - intros [= <-]. split; [done|]. by apply Exists_cons_hd.
  - intros [= <-]. split; [done|]. by apply Exists_cons_hd.
Qed.

Lemma firstCrash_None_inv queryResults :
  firstCrash queryResults = None ->
  Forall (fun r => is_Ok r || is_Err r = true) queryResults.
Proof.
  induction queryResults as [|r rest IH]; simpl; [constructor|].
  destruct r; try done; intros Hc; constructor; auto.
Qed.

(** X20: the failures of [GetTopNSimilarDocumentsForQueries]. When every
    query fails with an error the call fails with "failed to get top N
    similar documents for all queries"; this is the only error the call
    returns, and it returns it in no other case: the error of a single
    query is not passed on. A query whose goroutine panics or does not
    return keeps the call from returning. *)
Theorem GetTopNSimilarDocumentsForQueries_failure `{GoRuntime} c h queries topN :
  let queryResults := map (fun query => GetTopNSimilarDocuments c h query topN) queries in
  (Forall (fun r => is_Err r = true) queryResults ->
     GetTopNSimilarDocumentsForQueries c h queries topN
     = Err "failed to get top N similar documents for all queries") /\
  (forall e, GetTopNSimilarDocumentsForQueries c h queries topN = Err e ->
     e = "failed to get top N similar documents for all queries"%string /\
     Forall (fun r => is_Err r = true) queryResults) /\
  (Exists (fun r => is_Ok r || is_Err r = false) queryResults <->
     is_Ok (GetTopNSimilarDocumentsForQueries c h queries topN)
     || is_Err (GetTopNSimilarDocumentsForQueries c h queries topN) = false).
Proof.
  intros queryResults.
  assert (Hlen : len queryResults = len queries)
    by (unfold len, queryResults; by rewrite length_map).
  assert (Hmerge : firstCrash queryResults = None ->
            errNum queryResults <> len queries ->
            exists results, GetTopNSimilarDocumentsForQueries c h queries topN = Ok results).
  { intros Hcrash Herr.
    assert (Hex : Exists (fun r => is_Ok r = true) queryResults).
    { destruct (decide (Exists (fun r => is_Ok r = true) queryResults)) as [Hex|Hno]; [done|].
      exfalso. apply Herr. rewrite <- Hlen. apply errNum_all, Forall_forall. intros r Hr.
      destruct (is_Ok r) eqn:Hok; [|done].
      exfalso. apply Hno, Exists_exists. eauto. }
    assert (HtopN : 0 <= topN).
    { apply Exists_exists in Hex as (r & Hin & Hr).
      apply list_elem_of_In, in_map_iff in Hin as (query & Hq & _).
      destruct r as [results| | |]; try done.
      by apply GetTopNSimilarDocuments_Ok in Hq as [? _]. }
    unfold GetTopNSimilarDocumentsForQueries. fold queryResults. rewrite Hcrash.
    destruct (Z.eqb_spec (errNum queryResults) (len queries)) as [|_]; [done|].
    destruct (mergeResults_merged h (survivingResults queryResults) [] ∅ (merged_empty h)
                (survivingResults_allocated c h topN queries)) as (m & -> & _).
    obind.
    destruct (Z.ltb_spec topN (len (sortSlice resultLess (map snd (shuffle (map_to_list m))))));
      [|eauto].
    rewrite slicePrefix_Ok by lia. eauto. }
  split; [|split].
  - intros Hall. unfold GetTopNSimilarDocumentsForQueries. fold queryResults.
    rewrite firstCrash_None
      by (eapply Forall_impl; [exact Hall|]; intros r Hr; simpl in Hr; by destruct r).
    assert (errNum queryResults = len queries) as ->; [|by rewrite Z.eqb_refl].
    rewrite <- Hlen. apply errNum_all.
    eapply Forall_impl; [exact Hall|]. intros r Hr. simpl in Hr. by destruct r.
  - intros e He.
    destruct (firstCrash queryResults) as [crash|] eqn:Hcrash.
    { unfold GetTopNSimilarDocumentsForQueries in He. fold queryResults in He.
      rewrite Hcrash in He. apply firstCrash_Some in Hcrash as [Hc _].
      by rewrite He in Hc. }
    destruct (Z.eq_dec (errNum queryResults) (len queries)) as [Hall|Hsome].
    + split.
      * unfold GetTopNSimilarDocumentsForQueries in He. fold queryResults in He.
        rewrite Hcrash, Hall, Z.eqb_refl in He. by injection He as <-.
      * rewrite <- Hlen in Hall. apply errNum_all in Hall.
        apply firstCrash_None_inv in Hcrash.
        apply Forall_forall. intros r Hr.
        rewrite Forall_forall in Hall, Hcrash.
        specialize (Hall r Hr). specialize (Hcrash r Hr). simpl in *. by destruct r.
    + destruct (Hmerge eq_refl Hsome) as [results Hres]. congruence.
  - split.
    + intros Hex. unfold GetTopNSimilarDocumentsForQueries. fold queryResults.
      destruct (firstCrash queryResults) as [crash|] eqn:Hcrash.
      * by apply firstCrash_Some in Hcrash as [Hc _].
      * apply firstCrash_None_inv in Hcrash.
        apply Exists_exists in Hex as (r & Hin & Hr).
        rewrite Forall_forall in Hcrash. specialize (Hcrash r Hin). simpl in *. congruence.
    + intros Hres.
      destruct (firstCrash queryResults) as [crash|] eqn:Hcrash;
        [by apply firstCrash_Some in Hcrash as [_ ?]|].
      exfalso.
      destruct (Z.eq_dec (errNum queryResults) (len queries)) as [Hall|Hsome].
      * unfold GetTopNSimilarDocumentsForQueries in Hres. fold queryResults in Hres.
        rewrite Hcrash, Hall, Z.eqb_refl in Hres. done.
      * destruct (Hmerge eq_refl Hsome) as [results Hok]. by rewrite Hok in Hres.
Qed.

(** X20 on the empty collection of the repository's tests: both queries
    fail, each with "no embeddings provided", and the call with the
    error for all queries. *)
Lemma GetTopNSimilarDocumentsForQueries_failure_witness :
  Forall (fun r => is_Err r = true)
    (map (fun query => @GetTopNSimilarDocuments ascii_runtime testCollection testHeap query 5)
         ["query1"%string; "query2"%string]) /\
  @GetTopNSimilarDocumentsForQueries ascii_runtime testCollection testHeap
    ["query1"%string; "query2"%string] 5
  = Err "failed to get top N similar documents for all queries".
Proof.
  assert (Hall : Forall (fun r => is_Err r = true)
    (map (fun query => @GetTopNSimilarDocuments ascii_runtime testCollection testHeap query 5)
         ["query1"%string; "query2"%string])).
  { repeat constructor. }
  split; [exact Hall|].
  exact (proj1 (@GetTopNSimilarDocumentsForQueries_failure ascii_runtime testCollection testHeap
                  ["query1"%string; "query2"%string] 5) Hall).
Defined.

(** ** EmbedDocuments, further *)

Lemma normalizeAll_lookup embeddings : forall normalized j norm,
  normalizeAll embeddings = Ok normalized ->
  normalized !! j = Some norm ->
  exists e, embeddings !! j = Some e /\ normalizeVector e = Ok norm.
Proof.
  induction embeddings as [|e rest IH]; intros normalized j norm; simpl.
  - by intros [= <-].
  - intros Hall. apply bind_Ok_inv in Hall as (n & Hn & Hall).
    destruct (normalizeAll rest) as [ns| | |]; try done.
    injection Hall as <-. destruct j as [|j]; simpl.
    + intros [= <-]. eauto.
    + by apply IH.
Qed.

Lemma embedSegments_new doc embeddings segments : forall h i h' d,
  embedSegments h doc embeddings i segments = (h', Ok tt) ->
  documents_at h !! doc = Some d ->
  exists new,
    length new = length segments /\
    Segments <$> (documents_at h' !! doc) = Some (Segments d ++ new) /\
    forall j q, new !! j = Some q ->
      exists text e,
        segments !! j = Some text /\ embeddings !! (i + j)%nat = Some e /\
        segments_at h' !! q = Some {| Text := text; Embedding := e |}.
Proof.
  induction segments as [|text rest IH]; intros h i h' d; simpl.
  - intros [= <-] Hd. exists []. rewrite Hd, app_nil_r. done.
  - destruct (embeddings !! i) as [e|] eqn:He; [|done].
    intros Hrest Hd.
    pose proof (embedSegments_extends _ _ _ _ _ _ _ Hrest) as [Hkept _].
    eapply IH in Hrest as (new & Hlen & Hsegs & Hnew).
    2:{ simpl. rewrite lookup_alter, decide_True, Hd by done. reflexivity. }
    simpl in Hsegs. rewrite <- app_assoc in Hsegs.
    exists (fresh (dom (segments_at h)) :: new).
    split; [simpl; by rewrite Hlen|]. split; [exact Hsegs|].
    intros [|j] q Hq; simpl in Hq.
    + injection Hq as <-. exists text, e. rewrite Nat.add_0_r.
      repeat split; try done. apply Hkept. simpl. apply lookup_insert_eq.
    + destruct (Hnew j q Hq) as (text' & e' & H1 & H2 & H3).
      exists text', e'. rewrite <- Nat.add_succ_comm. done.
Qed.

Lemma embedSegments_frame doc embeddings segments p : forall h i h' r,
  embedSegments h doc embeddings i segments = (h', r) ->
  p <> doc -> documents_at h' !! p = documents_at h !! p.
Proof.
  induction segments as [|text rest IH]; intros h i h' r; simpl.
  - by intros [= <- _].
  - destruct (embeddings !! i) as [e|]; [|by intros [= <- _]].
    intros Hrest Hp. rewrite (IH _ _ _ _ Hrest Hp). simpl.
    by rewrite lookup_alter_ne.
Qed.

Lemma embedDocument_frame `{GoRuntime} c h doc h' r p :
  embedDocument c h doc = (h', r) ->
  p <> doc -> documents_at h' !! p = documents_at h !! p.
Proof.
  unfold embedDocument.
  destruct (documents_at h !! doc) as [d|]; [|by intros [= <- _]].
  case_decide; [by intros [= <- _]|].
  destruct (splitText c (Content d)) as [segments| | |]; try by intros [= <- _].
  destruct (embeddingFunc c segments (embeddingDocumentType c)) as [embeddings| | |];
    try by intros [= <- _].
  destruct (normalizeAll embeddings) as [normalized| | |]; try by intros [= <- _].
  apply embedSegments_frame.
Qed.

Lemma embedDocument_embeddedFrom `{GoRuntime} c h doc h' :
  embedDocument c h doc = (h', Ok tt) ->
  exists d, documents_at h !! doc = Some d /\ embeddedFrom c d h' doc.
Proof.
  unfold embedDocument.
  destruct (documents_at h !! doc) as [d|] eqn:Hd; [|done].
  case_decide as Hcontent; [done|].
  destruct (splitText c (Content d)) as [segments| | |] eqn:Hsplit; try done.
  destruct (embeddingFunc c segments (embeddingDocumentType c)) as [embeddings| | |] eqn:Hemb;
    try done.
  destruct (normalizeAll embeddings) as [normalized| | |] eqn:Hnorm; try done.
  intros Hsegs.
  destruct (embedSegments_new _ _ _ _ _ _ _ Hsegs Hd) as (new & Hlen & Hnewsegs & Hnew).
  exists d. split; [done|]. exists segments, embeddings, new.
  repeat (split; [done|]).
  intros j q Hq. destruct (Hnew j q Hq) as (text & norm & Htext & He & Hat).
  simpl in He.
  destruct (normalizeAll_lookup _ _ _ _ Hnorm He) as (e & Hej & Hen).
  by exists text, e, norm.
Qed.

Lemma embeddedFrom_extends `{GoRuntime} c d h1 h' p :
  embeddedFrom c d h1 p ->
  documents_at h' !! p = documents_at h1 !! p ->
  heap_extends h1 h' ->
  embeddedFrom c d h' p.
Proof.
  intros (segments & embeddings & new & Hc & Hsplit & Hemb & Hlen & Hsegs & Hnew) Hp [Hkept _].
  exists segments, embeddings, new. repeat (split; [done|]).
  split; [by rewrite Hp|].
  intros j q Hq. destruct (Hnew j q Hq) as (text & e & norm & H1 & H2 & H3 & H4).
  exists text, e, norm. repeat (split; [done|]). by apply Hkept.
Qed.

Lemma embedAll_embeddedFrom `{GoRuntime} c docs : forall h h',
  NoDup docs.*2 ->
  embedAll c h docs = (h', Ok tt) ->
  (forall p, p ∉ docs.*2 -> documents_at h' !! p = documents_at h !! p) /\
  (forall p, p ∈ docs.*2 ->
     exists d, documents_at h !! p = Some d /\ embeddedFrom c d h' p).
Proof.
  induction docs as [|[id doc] rest IH]; intros h h'; simpl.
  - intros _ [= <-]. split; [done|]. intros p Hp. by apply elem_of_nil in Hp.
  - intros Hnodup. apply NoDup_cons in Hnodup as [Hdoc Hnodup].
    destruct (embedDocument c h doc) as [h1 r1] eqn:Hone.
    destruct r1 as [[]| | |]; try done.
    intros Hrest.
    pose proof (embedAll_extends _ _ _ _ _ Hrest) as Hext.
    destruct (IH _ _ Hnodup Hrest) as [Hframe Hin].
    split.
    + intros p Hp. apply not_elem_of_cons in Hp as [Hne Hp].
      rewrite (Hframe p Hp). by eapply embedDocument_frame.
    + intros p Hp. apply elem_of_cons in Hp as [->|Hp].
      * destruct (embedDocument_embeddedFrom _ _ _ _ Hone) as (d & Hd & Hemb).
        exists d. split; [done|].
        eapply embeddedFrom_extends; [exact Hemb | by apply Hframe | done].
      * destruct (Hin p Hp) as (d & Hd & Hemb). exists d. split; [|done].
        rewrite <- Hd. symmetry. eapply embedDocument_frame; [done|].
        intros ->. done.
Qed.

(** X21: what a successful [EmbedDocuments] does, in a store where each
    document is stored under its own ID: every stored document keeps
    the segments it had and gets behind them one new segment for each
    chunk of its content, with the chunk as text and the normalized
    vector the embedding function gave for it; a document that is not
    stored is left as it was. *)
Theorem EmbedDocuments_success `{GoRuntime} c h h' :
  store_inv c h ->
  EmbedDocuments c h = (h', Ok tt) ->
  (forall id p, documents c !! id = Some p ->
     exists d, documents_at h !! p = Some d /\ embeddedFrom c d h' p) /\
  (forall p, (forall id, documents c !! id <> Some p) ->
     documents_at h' !! p = documents_at h !! p).
Proof.
  intros Hinv. unfold EmbedDocuments. intros Hall.
  assert (Hnodup : NoDup (shuffle (map_to_list (documents c))).*2).
  { rewrite shuffle_perm. apply NoDup_fmap_2_strong; [|apply NoDup_map_to_list].
    intros [id1 p1] [id2 p2] Hin1 Hin2. simpl. intros <-.
    apply elem_of_map_to_list in Hin1, Hin2.
    destruct (Hinv _ _ Hin1) as (d1 & Hd1 & <- & _).
    destruct (Hinv _ _ Hin2) as (d2 & Hd2 & <- & _).
    congruence. }
  destruct (embedAll_embeddedFrom _ _ _ _ Hnodup Hall) as [Hframe Hin].
  split.
  - intros id p Hp. apply Hin. rewrite shuffle_perm.
    apply list_elem_of_fmap. exists (id, p). split; [done|]. by apply elem_of_map_to_list.
  - intros p Hp. apply Hframe. rewrite shuffle_perm. intros Hel.
    apply list_elem_of_fmap in Hel as ([id p'] & -> & Hel).
    apply elem_of_map_to_list in Hel. by apply (Hp id).
Qed.

(** X21 on the test document stored without segments: [EmbedDocuments]
    gives it the one segment of its content. *)
Lemma EmbedDocuments_success_witness :
  let c := set_documents testCollection
             (<[ID testDocument := 1%positive]> (documents testCollection)) in
  let h' := (@EmbedDocuments ascii_runtime c testHeap).1 in
  store_inv c testHeap /\
  @EmbedDocuments ascii_runtime c testHeap = (h', Ok tt) /\
  Segments <$> (documents_at h' !! 1%positive) = Some [1%positive] /\
  (forall id p, documents c !! id = Some p ->
     exists d, documents_at testHeap !! p = Some d /\ @embeddedFrom ascii_runtime c d h' p) /\
  (forall p, (forall id, documents c !! id <> Some p) ->
     documents_at h' !! p = documents_at testHeap !! p).
Proof.
  intros c h'.
  assert (Hinv : store_inv c testHeap).
  { apply store_inv_insert; [|reflexivity|discriminate|discriminate].
    intros id p. simpl. by rewrite lookup_empty. }
  assert (Hrun : @EmbedDocuments ascii_runtime c testHeap = (h', Ok tt))
    by (vm_compute; reflexivity).
  split; [exact Hinv|]. split; [exact Hrun|].
  split; [vm_compute; reflexivity|].
  exact (@EmbedDocuments_success ascii_runtime c testHeap h' Hinv Hrun).
Defined.

(** ** A search over the whole store *)

Lemma digitString_no_underscore s :
  digitString s -> "_"%char ∉ String.list_ascii_of_string s.
Proof.
  induction 1 as [d Hd|d s Hd Hs IH]; simpl;
    destruct (digitChar_spec d Hd) as (_ & _ & Hne);
    apply Ascii.eqb_neq in Hne; rewrite not_elem_of_cons; (split; [congruence|]);
    [apply not_elem_of_nil | done].
Qed.

Lemma resolveSimilarity_slot c h docID doc d i seg score :
  documents c !! docID = Some doc ->
  documents_at h !! doc = Some d ->
  Segments d !! i = Some seg ->
  len (Segments d) <= MaxInt ->
  resolveSimilarity c h {| Similarity_ID := compositeID docID (Z.of_nat i);
                           Similarity_Score := score |}
  = Ok (Some {| Result_Document := doc; Result_Segment := seg; Result_Similarity := score |}).
Proof.
  intros Hdoc Hd Hseg Hmax.
  pose proof (lookup_lt_Some _ _ _ Hseg) as Hi. unfold len in Hmax.
  assert (Hparse : parseIDAndSegmentIndex (compositeID docID (Z.of_nat i))
                   = Ok (docID, Z.of_nat i)).
  { unfold compositeID, fmtInteger.
    destruct (Z.ltb_spec (Z.of_nat i) 0) as [|_]; [lia|].
    set (ds := fmtDigits 20 (Z.of_nat i) EmptyString).
    assert (Hds : digitString ds) by (apply fmtDigits_digitString; [lia | lia | by left]).
    change ("_" +:+ ds) with (String "_" ds).
    rewrite parseIDAndSegmentIndex_split by by apply digitString_no_underscore.
    rewrite (Atoi_digitString ds (Z.of_nat i)); [done | done | | lia].
    unfold ds. rewrite parseDigits_fmtDigits; [done | lia |].
    unfold MaxInt in Hmax. change (10 ^ Z.of_nat 20) with 100000000000000000000. lia. }
  unfold resolveSimilarity. cbn [Similarity_ID Similarity_Score]. rewrite Hparse, Hdoc, Hd.
  destruct (Z.ltb_spec (Z.of_nat i) 0) as [|_]; [lia|].
  destruct (Z.leb_spec (len (Segments d)) (Z.of_nat i)) as [|_]; [unfold len in *; lia|].
  cbn [orb]. by rewrite Nat2Z.id, Hseg.
Qed.

Lemma storeSlots_elem_of h docs docID doc i seg :
  (docID, doc, i, seg) ∈ storeSlots h docs <->
  (docID, doc) ∈ docs /\
  exists d, documents_at h !! doc = Some d /\ Segments d !! i = Some seg.
Proof.
  unfold storeSlots. split.
  - intros Hsl. apply list_elem_of_In, in_flat_map in Hsl as ([k p] & Hkv & Hin).
    apply list_elem_of_In in Hkv, Hin.
    unfold documentSlots in Hin. simpl in Hin.
    destruct (documents_at h !! p) as [d|] eqn:Hd; [|by apply elem_of_nil in Hin].
    apply elem_of_lookup_imap in Hin as (j & seg' & [= -> -> -> ->] & Hlook).
    split; [done|]. eauto.
  - intros [Hkv (d & Hd & Hlook)]. apply list_elem_of_In, in_flat_map.
    exists (docID, doc). rewrite <- !list_elem_of_In. split; [done|].
    unfold documentSlots. simpl. rewrite Hd.
    apply (elem_of_lookup_imap_2 (fun i seg => (docID, doc, i, seg))), Hlook.
Qed.

Lemma flattenSegments_slots h docID doc segs : forall i0,
  Forall (fun seg => is_Some (segments_at h !! seg)) segs ->
  exists cands, flattenSegments h docID i0 segs = Ok cands /\
    Forall2 (slotCandidate h) (imap (fun j seg => (docID, doc, (i0 + j)%nat, seg)) segs) cands.
Proof.
  induction segs as [|seg rest IH]; intros i0 Hall; simpl.
  - exists []. split; [done | constructor].
  - apply Forall_cons in Hall as [[s Hs] Hrest]. rewrite Hs.
    destruct (IH (S i0) Hrest) as (cands & -> & Hcands).
    eexists. split; [reflexivity|]. constructor.
    + exists s. simpl. rewrite Nat.add_0_r. done.
    + rewrite (imap_ext _ (fun j seg => (docID, doc, (S i0 + j)%nat, seg))); [done|].
      intros j x _. simpl. do 2 f_equal. lia.
Qed.

Lemma flattenDocuments_slots h docs :
  Forall (fun kv => exists d, documents_at h !! kv.2 = Some d /\
                      Forall (fun seg => is_Some (segments_at h !! seg)) (Segments d)) docs ->
  exists cands, flattenDocuments h docs = Ok cands /\
    Forall2 (slotCandidate h) (storeSlots h docs) cands.
Proof.
  induction 1 as [|[docID doc] rest (d & Hd & Hsegs) _ IH]; simpl.
  - exists []. split; [done | constructor].
  - simpl in Hd. rewrite Hd.
    destruct (flattenSegments_slots h docID doc (Segments d) 0 Hsegs) as (cs & -> & Hcs).
    destruct IH as (cands & -> & Hcands).
    eexists. split; [reflexivity|].
    apply Forall2_app; [|done]. unfold documentSlots. simpl. by rewrite Hd.
Qed.

Lemma scoreEmbeddings_all nq cands : forall pre,
  Forall (fun cand => length cand.1 = length nq) cands ->
  scoreEmbeddings nq (map fst cands) (pre ++ map snd cands) (length pre)
  = Ok (map (scoreOf nq) cands).
Proof.
  induction cands as [|[e id] rest IH]; intros pre Hall; simpl; [done|].
  apply Forall_cons in Hall as [He Hrest]. simpl in He.
  unfold dotProduct. rewrite He, Nat.eqb_refl. simpl.
  rewrite lookup_app_r, Nat.sub_diag by done. simpl.
  specialize (IH (pre ++ [id]) Hrest).
  rewrite <- app_assoc, length_app in IH. simpl in IH.
  rewrite Nat.add_1_r in IH. by rewrite IH.
Qed.

Lemma getTopNSimilarEmbeddings_all `{GoRuntime} q nq cands topN :
  cands <> [] ->
  normalizeVector q = Ok nq ->
  Forall (fun cand => length cand.1 = length q) cands ->
  len cands <= topN ->
  exists sims,
    getTopNSimilarEmbeddings q (map fst cands) (map snd cands) topN = Ok sims /\
    sims ≡ₚ map (scoreOf nq) cands.
Proof.
  intros Hne Hnq Hall Hn.
  assert (Hlen : length nq = length q) by by eapply normalizeVector_length.
  assert (Hscore : scoreEmbeddings nq (map fst cands) (map snd cands) 0
                   = Ok (map (scoreOf nq) cands)).
  { apply (scoreEmbeddings_all nq cands []).
    eapply Forall_impl; [exact Hall|]. intros cand Hc. simpl in Hc. congruence. }
  unfold getTopNSimilarEmbeddings.
  destruct cands as [|[e0 id0] rest]; [done|].
  apply Forall_cons in Hall as Hall'. destruct Hall' as [He0 _]. simpl in He0.
  change (map fst ((e0, id0) :: rest)) with (e0 :: map fst rest) at 1.
  cbv beta iota. rewrite He0, Nat.eqb_refl. cbn [negb].
  rewrite Hnq. obind. rewrite Hscore. obind.
  set (sorted := sortSlice similarityLess (map (scoreOf nq) ((e0, id0) :: rest))).
  assert (Hperm : sorted ≡ₚ map (scoreOf nq) ((e0, id0) :: rest)) by apply sortSlice_perm.
  assert (Hsl : len sorted = len ((e0, id0) :: rest)).
  { unfold len. by rewrite Hperm, length_map. }
  exists sorted. split; [|done].
  destruct (Z.ltb_spec (len sorted) topN).
  - rewrite slicePrefix_Ok by (unfold len; lia).
    unfold len. rewrite Nat2Z.id. by rewrite take_ge.
  - rewrite slicePrefix_Ok by (unfold len in *; lia).
    rewrite take_ge; [done|]. unfold len in *. lia.
Qed.

Lemma resolveSimilarities_all c h sims :
  Forall (fun sim => exists res, resolveSimilarity c h sim = Ok (Some res)) sims ->
  exists results,
    resolveSimilarities c h sims = Ok results /\
    length results = length sims /\
    forall sim res, sim ∈ sims -> resolveSimilarity c h sim = Ok (Some res) -> res ∈ results.
Proof.
  induction 1 as [|sim rest [res Hres] _ (results & Hrest & Hlen & Hin)]; simpl.
  - exists []. split; [done|]. split; [done|]. intros sim res Hs. by apply elem_of_nil in Hs.
  - rewrite Hres, Hrest. obind. exists (res :: results).
    split; [done|]. split; [simpl; by rewrite Hlen|].
    intros sim' res' Hs Hr. apply elem_of_cons in Hs as [->|Hs].
    + rewrite Hres in Hr. injection Hr as <-. left.
    + right. by eapply Hin.
Qed.

Lemma storeSlots_shuffle_length `{GoRuntime} c h :
  length (storeSlots h (shuffle (map_to_list (documents c)))) = segmentCount c h.
Proof.
  unfold segmentCount, storeSlots. apply Permutation_length, Permutation_flat_map, shuffle_perm.
Qed.

(** X22: a search with room for every stored segment returns every
    stored segment. When the store is searchable with vectors of the
    length of the query's vector, the query's vector can be normalized,
    there is at least one stored segment and [topN] is at least their
    number, [GetTopNSimilarDocuments] succeeds with as many results as
    there are stored segments, and each stored segment is among them
    with its document and, as similarity, the dot product of the
    normalized query vector and its embedding. *)
Theorem GetTopNSimilarDocuments_complete `{GoRuntime} c h query topN q0 others normalized :
  embeddingFunc c [query] (embeddingQueryType c) = Ok (q0 :: others) ->
  normalizeVector q0 = Ok normalized ->
  searchable c h (length q0) ->
  (0 < segmentCount c h)%nat ->
  Z.of_nat (segmentCount c h) <= topN ->
  exists results,
    GetTopNSimilarDocuments c h query topN = Ok results /\
    length results = segmentCount c h /\
    forall docID doc d i seg s,
      documents c !! docID = Some doc ->
      documents_at h !! doc = Some d ->
      Segments d !! i = Some seg ->
      segments_at h !! seg = Some s ->
      {| Result_Document := doc; Result_Segment := seg;
         Result_Similarity := dotLoop 0%float normalized (Embedding s) |} ∈ results.
Proof.
  intros Hq Hnq Hstore Hsome Hroom.
  set (docs := shuffle (map_to_list (documents c))).
  assert (Hdocs : forall docID doc, (docID, doc) ∈ docs <-> documents c !! docID = Some doc).
  { intros docID doc. unfold docs. rewrite shuffle_perm. apply elem_of_map_to_list. }
  destruct (flattenDocuments_slots h docs) as (cands & Hflat & Hcands).
  { apply Forall_forall. intros [docID doc] Hin. apply Hdocs in Hin.
    destruct (Hstore _ _ Hin) as (d & Hd & _ & Hsegs). exists d. split; [done|].
    apply Forall_forall. intros seg Hseg. destruct (Hsegs seg Hseg) as (s & -> & _). done. }
  assert (Hcount : length cands = segmentCount c h).
  { rewrite <- (Forall2_length _ _ _ Hcands). apply storeSlots_shuffle_length. }
  assert (Hslot : forall cand, cand ∈ cands ->
            exists docID doc d i seg s,
              documents c !! docID = Some doc /\ documents_at h !! doc = Some d /\
              Segments d !! i = Some seg /\ segments_at h !! seg = Some s /\
              len (Segments d) <= MaxInt /\ length (Embedding s) = length q0 /\
              cand = (Embedding s, compositeID docID (Z.of_nat i))).
  { intros cand Hin. apply list_elem_of_lookup in Hin as [k Hk].
    destruct (Forall2_lookup_r _ _ _ _ _ Hcands Hk) as ([[[docID doc] i] seg] & Hsl & s & Hs & ->).
    apply list_elem_of_lookup_2, storeSlots_elem_of in Hsl as [Hin (d & Hd & Hseg)].
    apply Hdocs in Hin. simpl in Hs.
    destruct (Hstore _ _ Hin) as (d' & Hd' & Hmax & Hsegs).
    assert (d' = d) as -> by congruence.
    destruct (Hsegs seg (list_elem_of_lookup_2 _ _ _ Hseg)) as (s' & Hs' & Hlen).
    assert (s' = s) as -> by congruence.
    by exists docID, doc, d, i, seg, s. }
  destruct (getTopNSimilarEmbeddings_all q0 normalized cands topN) as (sims & Hsims & Hperm).
  { intros ->. simpl in Hcount. lia. }
  { done. }
  { apply Forall_forall. intros cand Hin.
    destruct (Hslot cand Hin) as (? & ? & ? & ? & ? & s & _ & _ & _ & _ & _ & Hlen & ->). done. }
  { unfold len. lia. }
  destruct (resolveSimilarities_all c h (shuffle sims)) as (rs & Hrs & Hrlen & Hrin).
  { apply Forall_forall. intros sim Hin. rewrite shuffle_perm, Hperm in Hin.
    rewrite map_fmap in Hin. apply list_elem_of_fmap in Hin as (cand & -> & Hin).
    destruct (Hslot cand Hin) as (docID & doc & d & i & seg & s & Hdoc & Hd & Hseg & _ & Hmax & _ & ->).
    eexists. by apply (resolveSimilarity_slot c h docID doc d i seg). }
  exists (sortSlice resultLess rs). split; [|split].
  - unfold GetTopNSimilarDocuments. rewrite Hq. obind. fold docs. rewrite Hflat. obind.
    rewrite Hsims. obind. rewrite Hrs. done.
  - rewrite sortSlice_perm, Hrlen, shuffle_perm, Hperm, length_map. done.
  - intros docID doc d i seg s Hdoc Hd Hseg Hs.
    rewrite sortSlice_perm.
    apply (Hrin (scoreOf normalized (Embedding s, compositeID docID (Z.of_nat i)))).
    + rewrite shuffle_perm, Hperm, map_fmap. apply list_elem_of_fmap_2.
      assert (Hsl : (docID, doc, i, seg) ∈ storeSlots h docs).
      { apply storeSlots_elem_of. split; [by apply Hdocs | eauto]. }
      apply list_elem_of_lookup in Hsl as [k Hk].
      destruct (Forall2_lookup_l _ _ _ _ _ Hcands Hk) as (cand & Hcand & s' & Hs' & ->).
      simpl in Hs'. assert (s' = s) as -> by congruence.
      by eapply list_elem_of_lookup_2.
    + destruct (Hstore _ _ Hdoc) as (d' & Hd' & Hmax & _).
      assert (d' = d) as -> by congruence.
      by apply (resolveSimilarity_slot c h docID doc d i seg).
Qed.

(** X22 on the collection with the document "X" of two segments, the
    query "A" with the vector (3, 4) and room for two results: both
    segments are returned. *)
Lemma GetTopNSimilarDocuments_complete_witness :
  embeddingFunc mergeCollection ["A"%string] (embeddingQueryType mergeCollection)
  = Ok [[3; 4]%float] /\
  normalizeVector [3; 4]%float = Ok [3 / 5; 4 / 5]%float /\
  searchable mergeCollection mergeHeap 2 /\
  segmentCount mergeCollection mergeHeap = 2%nat /\
  exists results,
    @GetTopNSimilarDocuments ascii_runtime mergeCollection mergeHeap "A" 2 = Ok results /\
    length results = segmentCount mergeCollection mergeHeap /\
    forall docID doc d i seg s,
      documents mergeCollection !! docID = Some doc ->
      documents_at mergeHeap !! doc = Some d ->
      Segments d !! i = Some seg ->
      segments_at mergeHeap !! seg = Some s ->
      {| Result_Document := doc; Result_Segment := seg;
         Result_Similarity := dotLoop 0%float [3 / 5; 4 / 5]%float (Embedding s) |} ∈ results.
Proof.
  assert (Hq : embeddingFunc mergeCollection ["A"%string] (embeddingQueryType mergeCollection)
               = Ok [[3; 4]%float]) by reflexivity.
  assert (Hnq : normalizeVector [3; 4]%float = Ok [3 / 5; 4 / 5]%float)
    by (vm_compute; reflexivity).
  assert (Hstore : searchable mergeCollection mergeHeap 2).
  { intros id p Hlook. unfold mergeCollection in Hlook. cbn [documents] in Hlook.
    apply lookup_singleton_Some in Hlook as [<- <-].
    eexists. split; [vm_compute; reflexivity|]. split; [vm_compute; discriminate|].
    intros seg Hseg. cbn [Segments] in Hseg.
    apply elem_of_cons in Hseg as [->|Hseg];
      [eexists; split; [vm_compute; reflexivity | reflexivity]|].
    apply elem_of_cons in Hseg as [->|Hseg];
      [eexists; split; [vm_compute; reflexivity | reflexivity]|].
    by apply elem_of_nil in Hseg. }
  assert (Hcount : segmentCount mergeCollection mergeHeap = 2%nat) by (vm_compute; reflexivity).
  split; [exact Hq|]. split; [exact Hnq|]. split; [exact Hstore|]. split; [exact Hcount|].
  apply (@GetTopNSimilarDocuments_complete ascii_runtime mergeCollection mergeHeap "A" 2
           [3; 4]%float [] [3 / 5; 4 / 5]%float Hq Hnq Hstore).
  - rewrite Hcount. lia.
  - rewrite Hcount. lia.
Defined.

(** ** Several queries: what the merge returns *)

Lemma merged_documents h seen m :
  merged h seen m -> allocated h seen ->
  map (resultDocID h) (map snd (map_to_list m)) ≡ₚ resultDocuments h seen.
Proof.
  intros Hm Halloc. apply NoDup_Permutation.
  - by eapply merged_NoDup.
  - apply NoDup_remove_dups.
  - intros x. unfold resultDocuments. rewrite elem_of_remove_dups, !map_fmap.
    destruct Hm as [Hbest Hkeys]. split.
    + intros Hx. apply list_elem_of_fmap in Hx as (r & -> & Hr).
      apply list_elem_of_fmap in Hr as ([k r0] & -> & Hin). simpl.
      apply elem_of_map_to_list in Hin. destruct (Hbest k r0 Hin) as (Hseen & _).
      by apply list_elem_of_fmap_2.
    + intros Hx. apply list_elem_of_fmap in Hx as (r' & -> & Hr').
      unfold allocated in Halloc. rewrite Forall_forall in Halloc. destruct (Halloc r' Hr') as [d Hd].
      assert (Hid : resultDocID h r' = Some (ID d)) by (unfold resultDocID; by rewrite Hd).
      destruct (Hkeys r' (ID d) Hr' Hid) as [r Hr].
      destruct (Hbest _ _ Hr) as (_ & Hrid & _).
      rewrite Hid, <- Hrid. apply list_elem_of_fmap_2.
      apply list_elem_of_fmap. exists (ID d, r). split; [done|]. by apply elem_of_map_to_list.
Qed.

(** X23: how many results [GetTopNSimilarDocumentsForQueries] returns,
    and which documents they cover. A successful call returns [topN]
    results or one for each document that has a result in a surviving
    query, whichever is less; when [topN] leaves room for all of these
    documents, every surviving result has its document among the
    returned ones. *)
Theorem GetTopNSimilarDocumentsForQueries_covers `{GoRuntime} c h queries topN results :
  let queryResults := map (fun query => GetTopNSimilarDocuments c h query topN) queries in
  GetTopNSimilarDocumentsForQueries c h queries topN = Ok results ->
  len results = Z.min topN (len (resultDocuments h (survivingResults queryResults))) /\
  (len (resultDocuments h (survivingResults queryResults)) <= topN ->
   forall r', r' ∈ survivingResults queryResults ->
     exists r, r ∈ results /\ resultDocID h r = resultDocID h r').
Proof.
  intros queryResults Hres.
  unfold GetTopNSimilarDocumentsForQueries in Hres. fold queryResults in Hres.
  destruct (firstCrash queryResults) as [crash|] eqn:Hcrash.
  { apply firstCrash_Some in Hcrash as [Hc _]. by rewrite Hres in Hc. }
  destruct (Z.eqb_spec (errNum queryResults) (len queries)) as [|_]; [done|].
  pose proof (survivingResults_allocated c h topN queries) as Halloc. fold queryResults in Halloc.
  destruct (mergeResults_merged h (survivingResults queryResults) [] ∅ (merged_empty h) Halloc)
    as (m & Hmerge & Hm).
  simpl app in Hm. rewrite Hmerge in Hres. revert Hres. obind. intros Hres.
  set (sorted := sortSlice resultLess (map snd (shuffle (map_to_list m)))) in *.
  assert (Hperm : sorted ≡ₚ map snd (map_to_list m)).
  { unfold sorted. rewrite sortSlice_perm. apply Permutation_map, shuffle_perm. }
  assert (Hlen : len sorted = len (resultDocuments h (survivingResults queryResults))).
  { unfold len. f_equal. rewrite <- (merged_documents _ _ _ Hm Halloc), length_map.
    by rewrite Hperm. }
  assert (Hcover : forall r', r' ∈ survivingResults queryResults ->
            exists r, r ∈ sorted /\ resultDocID h r = resultDocID h r').
  { intros r' Hr'. destruct Hm as [Hbest Hkeys].
    unfold allocated in Halloc. rewrite Forall_forall in Halloc. destruct (Halloc r' Hr') as [d Hd].
    assert (Hid : resultDocID h r' = Some (ID d)) by (unfold resultDocID; by rewrite Hd).
    destruct (Hkeys r' (ID d) Hr' Hid) as [r Hr].
    destruct (Hbest _ _ Hr) as (_ & Hrid & _).
    exists r. split; [|congruence]. rewrite Hperm, map_fmap.
    apply list_elem_of_fmap. exists (ID d, r). split; [done|]. by apply elem_of_map_to_list. }
  destruct (Z.ltb_spec topN (len sorted)) as [Hlt|Hge].
  - apply slicePrefix_inv in Hres as [[HtopN _] ->]. split.
    + unfold len in *. rewrite length_take. lia.
    + intros Hroom. lia.
  - injection Hres as <-. split; [lia|]. intros _. exact Hcover.
Qed.

(** X23 on the two queries that rank the two segments of the document
    "X": one document, so one result, and it covers both surviving
    results. *)
Lemma GetTopNSimilarDocumentsForQueries_covers_witness :
  let queryResults :=
    map (fun query => @GetTopNSimilarDocuments ascii_runtime mergeCollection mergeHeap query 1)
        ["A"%string; "B"%string] in
  @GetTopNSimilarDocumentsForQueries ascii_runtime mergeCollection mergeHeap
    ["A"%string; "B"%string] 1
  = Ok [ {| Result_Document := 1%positive; Result_Segment := 1%positive;
            Result_Similarity := 1%float |} ] /\
  len (resultDocuments mergeHeap (survivingResults queryResults)) <= 1 /\
  forall r', r' ∈ survivingResults queryResults ->
    exists r, r ∈ [ {| Result_Document := 1%positive; Result_Segment := 1%positive;
                       Result_Similarity := 1%float |} ] /\
              resultDocID mergeHeap r = resultDocID mergeHeap r'.
Proof.
  intros queryResults.
  assert (Hres : @GetTopNSimilarDocumentsForQueries ascii_runtime mergeCollection mergeHeap
                   ["A"%string; "B"%string] 1
                 = Ok [ {| Result_Document := 1%positive; Result_Segment := 1%positive;
                           Result_Similarity := 1%float |} ])
    by (vm_compute; reflexivity).
  assert (Hroom : len (resultDocuments mergeHeap (survivingResults queryResults)) <= 1)
    by (vm_compute; discriminate).
  split; [exact Hres|]. split; [exact Hroom|].
  exact (proj2 (@GetTopNSimilarDocumentsForQueries_covers ascii_runtime mergeCollection mergeHeap
                  ["A"%string; "B"%string] 1 _ Hres) Hroom).
Defined.

(** ** The version of AggregateResults that came before *)






